(** * RSVP: the tokenizer and the playback engine

    A shallow embedding of [rsvp/core/text_processor.py] and
    [rsvp/core/rsvp_engine.py].

    - Python [str] is a list of Unicode code points, [int] is [Z],
      [float] is a binary64 primitive float.
    - An operation that Python can abort with an exception returns a [Res].
    - The engine is a record holding the [RSVPState] dataclass and the two
      observable fields of its [QTimer]; its methods run in a small monad
      that threads the engine, collects the Qt signals emitted and
      propagates exceptions. *)

From Stdlib Require Import ZArith List Lia Bool Ascii String.
From Stdlib Require Import Sorted Permutation.
From Stdlib Require Import PrimFloat SpecFloat FloatOps FloatAxioms.
#[local] Set Warnings "-inexact-float".
Import ListNotations.
Local Open Scope Z_scope.

(* ================================================================== *)
(** * Python values *)
(* ================================================================== *)

Module Py.

(** Exceptions the modelled code can raise. *)
Inductive Exn : Type :=
| IndexError
| ZeroDivisionError
| ValueError
| OverflowError.

Inductive Res (A : Type) : Type :=
| Ok (a : A)
| Raise (x : Exn).
Arguments Ok {A} a.
Arguments Raise {A} x.

Definition bind {A B} (m : Res A) (k : A -> Res B) : Res B :=
  match m with
  | Ok a => k a
  | Raise x => Raise x
  end.

(** ** Strings *)

(** A character is its code point. *)
Definition char : Type := Z.
Definition str : Type := list char.

(** An ASCII literal as a [str]. *)
Fixpoint of_string (s : String.string) : str :=
  match s with
  | EmptyString => []
  | String a r => Z.of_N (N_of_ascii a) :: of_string r
  end.

Definition len {A} (l : list A) : Z := Z.of_nat (List.length l).

(** Truth value of a sequence: [not l] holds for the empty one. *)
Definition is_empty {A} (l : list A) : bool :=
  match l with
  | [] => true
  | _ :: _ => false
  end.

(** [c in chars] for a one-character string [c]. *)
Definition char_in (c : char) (chars : str) : bool :=
  existsb (Z.eqb c) chars.

(** [str.isspace] on one character; [re]'s [\s] on [str] patterns,
    [str.strip()] and [str.split()] all use this same table. *)
Definition isspace (c : char) : bool :=
  ((9 <=? c) && (c <=? 13))
  || ((28 <=? c) && (c <=? 32))
  || (c =? 133) || (c =? 160) || (c =? 5760)
  || ((8192 <=? c) && (c <=? 8202))
  || (c =? 8232) || (c =? 8233) || (c =? 8239) || (c =? 8287)
  || (c =? 12288).

(** [s.lstrip()] *)
Fixpoint lstrip (s : str) : str :=
  match s with
  | [] => []
  | c :: r => if isspace c then lstrip r else s
  end.

(** [s.rstrip()]: the longest all-whitespace suffix is dropped. *)
Fixpoint rstrip (s : str) : str :=
  match s with
  | [] => []
  | c :: r =>
      let r' := rstrip r in
      if isspace c && is_empty r' then [] else c :: r'
  end.

(** [s.strip()] *)
Definition strip (s : str) : str := rstrip (lstrip s).

(** [re.sub(r'\s+', ' ', s)]: every maximal run of whitespace becomes one
    space.  [in_run] tells that the previous character was whitespace. *)
Fixpoint re_sub_ws (in_run : bool) (s : str) : str :=
  match s with
  | [] => []
  | c :: r =>
      if isspace c
      then if in_run then re_sub_ws true r else 32 :: re_sub_ws true r
      else c :: re_sub_ws false r
  end.

(** [s.split()]: the maximal runs of non-whitespace, in order.  [cur] is
    the run being read, last character first. *)
Fixpoint split_from (cur : str) (s : str) : list str :=
  match s with
  | [] => if is_empty cur then [] else [rev cur]
  | c :: r =>
      if isspace c
      then if is_empty cur then split_from [] r
           else rev cur :: split_from [] r
      else split_from (c :: cur) r
  end.

Definition split (s : str) : list str := split_from [] s.

(** ** Indexing and slicing *)

(** [l[i]]: a negative index counts from the end; out of range raises. *)
Definition getitem {A} (l : list A) (i : Z) : Res A :=
  let j := if i <? 0 then i + len l else i in
  if (0 <=? j) && (j <? len l)
  then match nth_error l (Z.to_nat j) with
       | Some a => Ok a
       | None => Raise IndexError
       end
  else Raise IndexError.

(** A slice bound, clamped the way Python clamps it. *)
Definition slice_bound {A} (l : list A) (i : Z) : nat :=
  Z.to_nat (if i <? 0 then Z.max 0 (i + len l) else Z.min i (len l)).

(** [l[:i]] *)
Definition slice_to {A} (l : list A) (i : Z) : list A :=
  firstn (slice_bound l i) l.

(** [l[i:]] *)
Definition slice_from {A} (l : list A) (i : Z) : list A :=
  skipn (slice_bound l i) l.

(** ** Floats *)

(** [float(z)]: the nearest binary64, ties to even. *)
Definition float_of_Z (z : Z) : float :=
  SF2Prim (binary_normalize prec emax z 0 false).

(** The integer part of a finite float, rounded toward zero. *)
Definition trunc_SF (x : spec_float) : Res Z :=
  match x with
  | S754_zero _ => Ok 0
  | S754_finite s m e =>
      let a := if 0 <=? e then Z.shiftl (Z.pos m) e
               else Z.shiftr (Z.pos m) (- e) in
      Ok (if s then - a else a)
  | S754_infinity _ => Raise OverflowError
  | S754_nan => Raise ValueError
  end.

(** [int(x)] for a float [x]. *)
Definition int_of_float (x : float) : Res Z := trunc_SF (Prim2SF x).

(** [a / b] on two [int]s.  Python rounds the exact quotient; dividing
    the two converted operands gives the same float as long as both are
    below 2^53 in magnitude, which covers every use below. *)
Definition truediv (a b : Z) : Res float :=
  if b =? 0 then Raise ZeroDivisionError
  else Ok (PrimFloat.div (float_of_Z a) (float_of_Z b)).

End Py.

Import Py.

Notation "x <- m ;; k" := (Py.bind m (fun x => k))
  (at level 61, m at next level, right associativity).

(* ================================================================== *)
(** * text_processor.py *)
(* ================================================================== *)

Module TextProcessor.

(** [@dataclass class Word] *)
Record Word : Type := mkWord {
  text : str;
  orp_index : Z;
  pause_after : float
}.

(** [Word.before_orp] *)
Definition before_orp (w : Word) : str :=
  slice_to (text w) (orp_index w).

(** [Word.orp_char] *)
Definition orp_char (w : Word) : Res str :=
  if orp_index w <? len (text w)
  then c <- getitem (text w) (orp_index w) ;; Ok [c]
  else Ok [].

(** [Word.after_orp] *)
Definition after_orp (w : Word) : str :=
  if orp_index w <? len (text w)
  then slice_from (text w) (orp_index w + 1)
  else [].

Definition calculate_orp (word : str) : Z :=
  let length := len word in
  if length <=? 1 then 0
  else if length <=? 3 then 0
  else if length <=? 5 then 1
  else if length <=? 9 then 2
  else if length <=? 13 then 3
  else 4.

(** The three character sets tested, as code points:
    ['.!?'], [',;:'] and the double quote, single quote and [')']. *)
Definition sentence_end : str := [46; 33; 63].
Definition clause_sep : str := [44; 59; 58].
Definition closers : str := [34; 39; 41].

Definition calculate_pause_multiplier (word : str) : Res float :=
  if is_empty word then Ok 1.0%float
  else
    last_char <- getitem word (-1) ;;
    if char_in last_char sentence_end then Ok 2.5%float
    else if char_in last_char clause_sep then Ok 1.5%float
    else if char_in last_char closers then
      if 1 <? len word
      then
        prev <- getitem word (-2) ;;
        if char_in prev sentence_end then Ok 2.5%float else Ok 1.2%float
      else Ok 1.2%float
    else Ok 1.0%float.

(** The [for raw_word in text.split()] loop; [words] is the list being
    appended to. *)
Fixpoint process_words (raws : list str) (words : list Word)
  : Res (list Word) :=
  match raws with
  | [] => Ok words
  | raw_word :: rest =>
      if is_empty raw_word then process_words rest words
      else
        let orp := calculate_orp raw_word in
        pause <- calculate_pause_multiplier raw_word ;;
        process_words rest (words ++ [mkWord raw_word orp pause])
  end.

Definition process_text (text : str) : Res (list Word) :=
  let text := re_sub_ws false (strip text) in
  if is_empty text then Ok []
  else process_words (split text) [].

End TextProcessor.

Import TextProcessor.

(* ================================================================== *)
(** * rsvp_engine.py *)
(* ================================================================== *)

Module Engine.

(** [@dataclass class RSVPState] *)
Record RSVPState : Type := mkState {
  words : list Word;
  current_index : Z;
  wpm : Z;
  is_playing : bool
}.

(** [RSVPState.current_word] *)
Definition current_word (s : RSVPState) : option Word :=
  if (0 <=? current_index s) && (current_index s <? len (words s))
  then nth_error (words s) (Z.to_nat (current_index s))
  else None.

(** [RSVPState.progress] *)
Definition progress (s : RSVPState) : Res float :=
  if is_empty (words s) then Ok 0.0%float
  else
    q <- truediv (current_index s) (len (words s)) ;;
    Ok (PrimFloat.mul q (float_of_Z 100)).

(** [RSVPState.words_remaining] *)
Definition words_remaining (s : RSVPState) : Z :=
  Z.max 0 (len (words s) - current_index s).

(** The four Qt signals of [RSVPEngine]. *)
Inductive Signal : Type :=
| word_changed (w : option Word)
| state_changed
| progress_changed (percent : float)
| finished.

(** [class RSVPEngine]: its [_state] and, of its [_timer], whether it is
    active and its interval in milliseconds. *)
Record RSVPEngine : Type := mkEngine {
  state : RSVPState;
  timer_active : bool;
  timer_interval : Z
}.

(** [RSVPEngine()]: a default [RSVPState] and a fresh, inactive timer. *)
Definition init : RSVPEngine :=
  mkEngine (mkState [] 0 300 false) false 0.

(** ** The method monad

    A method takes the engine and either raises, or returns a value, the
    engine as it leaves it, and the signals it emitted, oldest first. *)
Definition M (A : Type) : Type :=
  RSVPEngine -> Res (A * RSVPEngine * list Signal).

Definition ret {A} (a : A) : M A := fun e => Ok (a, e, []).

Definition bindM {A B} (m : M A) (k : A -> M B) : M B :=
  fun e =>
    match m e with
    | Ok (a, e1, out1) =>
        match k a e1 with
        | Ok (b, e2, out2) => Ok (b, e2, out1 ++ out2)
        | Raise x => Raise x
        end
    | Raise x => Raise x
    end.

Definition lift {A} (r : Res A) : M A :=
  fun e => match r with
           | Ok a => Ok (a, e, [])
           | Raise x => Raise x
           end.

Definition get_state : M RSVPState := fun e => Ok (state e, e, []).

Definition emit (s : Signal) : M unit := fun e => Ok (tt, e, [s]).

(** Assignments to the fields of [_state], and the three [QTimer]
    calls used: [start()], [stop()] and [setInterval(ms)]. *)
Definition with_words (ws : list Word) (e : RSVPEngine) : RSVPEngine :=
  let s := state e in
  mkEngine (mkState ws (current_index s) (wpm s) (is_playing s))
           (timer_active e) (timer_interval e).

Definition with_index (i : Z) (e : RSVPEngine) : RSVPEngine :=
  let s := state e in
  mkEngine (mkState (words s) i (wpm s) (is_playing s))
           (timer_active e) (timer_interval e).

Definition with_wpm (v : Z) (e : RSVPEngine) : RSVPEngine :=
  let s := state e in
  mkEngine (mkState (words s) (current_index s) v (is_playing s))
           (timer_active e) (timer_interval e).

Definition with_playing (b : bool) (e : RSVPEngine) : RSVPEngine :=
  let s := state e in
  mkEngine (mkState (words s) (current_index s) (wpm s) b)
           (timer_active e) (timer_interval e).

Definition with_timer_active (b : bool) (e : RSVPEngine) : RSVPEngine :=
  mkEngine (state e) b (timer_interval e).

Definition with_timer_interval (ms : Z) (e : RSVPEngine) : RSVPEngine :=
  mkEngine (state e) (timer_active e) ms.

Definition set_words (ws : list Word) : M unit :=
  fun e => Ok (tt, with_words ws e, []).

Definition set_current_index (i : Z) : M unit :=
  fun e => Ok (tt, with_index i e, []).

Definition set_wpm_field (v : Z) : M unit :=
  fun e => Ok (tt, with_wpm v e, []).

Definition set_is_playing (b : bool) : M unit :=
  fun e => Ok (tt, with_playing b e, []).

Definition timer_start : M unit :=
  fun e => Ok (tt, with_timer_active true e, []).

Definition timer_stop : M unit :=
  fun e => Ok (tt, with_timer_active false e, []).

Definition timer_setInterval (ms : Z) : M unit :=
  fun e => Ok (tt, with_timer_interval ms e, []).

Notation "x <-- m ;; k" := (bindM m (fun x => k))
  (at level 61, m at next level, right associativity).
Notation "m ;;; k" := (bindM m (fun _ => k))
  (at level 61, right associativity).

(** ** Methods of RSVPEngine *)

(** [_update_timer_interval] *)
Definition update_timer_interval : M unit :=
  s <-- get_state ;;
  base_interval <-- lift (truediv 60000 (wpm s)) ;;
  let interval :=
    match current_word s with
    | Some current => PrimFloat.mul base_interval (pause_after current)
    | None => base_interval
    end in
  ms <-- lift (int_of_float interval) ;;
  timer_setInterval ms.

(** The [wpm] setter *)
Definition set_wpm (value : Z) : M unit :=
  set_wpm_field (Z.max 50 (Z.min 2000 value)) ;;;
  s <-- get_state ;;
  if is_playing s then update_timer_interval else ret tt.

Definition pause : M unit :=
  set_is_playing false ;;;
  timer_stop ;;;
  emit state_changed.

Definition stop : M unit :=
  set_is_playing false ;;;
  timer_stop ;;;
  set_current_index 0 ;;;
  emit state_changed ;;;
  emit (progress_changed 0.0%float) ;;;
  s <-- get_state ;;
  if is_empty (words s) then ret tt
  else emit (word_changed (current_word s)).

Definition load_text (text : str) : M unit :=
  stop ;;;
  ws <-- lift (process_text text) ;;
  set_words ws ;;;
  set_current_index 0 ;;;
  emit state_changed ;;;
  emit (progress_changed 0.0%float) ;;;
  s <-- get_state ;;
  if is_empty (words s) then emit (word_changed None)
  else emit (word_changed (current_word s)).

Definition play : M unit :=
  s <-- get_state ;;
  if is_empty (words s) then ret tt
  else
    (if len (words s) - 1 <=? current_index s
     then set_current_index 0 else ret tt) ;;;
    set_is_playing true ;;;
    update_timer_interval ;;;
    timer_start ;;;
    emit state_changed.

Definition toggle_play_pause : M unit :=
  s <-- get_state ;;
  if is_playing s then pause else play.

Definition seek (index : Z) : M unit :=
  s <-- get_state ;;
  if is_empty (words s) then ret tt
  else
    set_current_index (Z.max 0 (Z.min index (len (words s) - 1))) ;;;
    s <-- get_state ;;
    emit (word_changed (current_word s)) ;;;
    p <-- lift (progress s) ;;
    emit (progress_changed p).

(** [seek_percent]: [percent / 100] divides by the float 100.0, the
    length is converted to a float for the product, and [int] truncates
    (raising on a NaN or an infinity). *)
Definition percent_index (percent : float) (n : Z) : Res Z :=
  int_of_float
    (PrimFloat.mul (PrimFloat.div percent (float_of_Z 100)) (float_of_Z n)).

Definition seek_percent (percent : float) : M unit :=
  s <-- get_state ;;
  if is_empty (words s) then ret tt
  else
    index <-- lift (percent_index percent (len (words s))) ;;
    seek index.

Definition skip_forward (n : Z) : M unit :=
  s <-- get_state ;;
  seek (current_index s + n).

Definition skip_backward (n : Z) : M unit :=
  s <-- get_state ;;
  seek (current_index s - n).

(** [word.text and word.text[-1] in '.!?'] *)
Definition ends_sentence (word : Word) : Res bool :=
  if is_empty (text word) then Ok false
  else
    c <- getitem (text word) (-1) ;;
    Ok (char_in c sentence_end).

(** The [while idx > 0] loop of [previous_sentence], followed by the
    final [seek(0)].  [idx] only steps down by one, so the loop is a
    recursion on [idx] as a natural number. *)
Fixpoint previous_sentence_from (idx : nat) : M unit :=
  match idx with
  | O => seek 0
  | S idx' =>
      s <-- get_state ;;
      word <-- lift (getitem (words s) (Z.of_nat idx)) ;;
      found <-- lift (ends_sentence word) ;;
      if found then seek (Z.of_nat idx + 1)
      else previous_sentence_from idx'
  end.

Definition previous_sentence : M unit :=
  s <-- get_state ;;
  if is_empty (words s) then ret tt
  else previous_sentence_from (Z.to_nat (Z.max 0 (current_index s - 1))).

(** The [while idx < len(words) - 1] loop of [next_sentence], followed by
    the final [seek(len(words) - 1)].  [left] is the loop's variant, the
    number of indices from [idx] up to [len(words) - 1] excluded:
    [next_sentence] starts it at [len(words) - 1 - idx]. *)
Fixpoint next_sentence_from (left : nat) (idx : Z) : M unit :=
  match left with
  | O =>
      s <-- get_state ;;
      seek (len (words s) - 1)
  | S left' =>
      s <-- get_state ;;
      word <-- lift (getitem (words s) idx) ;;
      found <-- lift (ends_sentence word) ;;
      if found then seek (idx + 1)
      else next_sentence_from left' (idx + 1)
  end.

Definition next_sentence : M unit :=
  s <-- get_state ;;
  if is_empty (words s) then ret tt
  else
    let idx := current_index s in
    next_sentence_from (Z.to_nat (len (words s) - 1 - idx)) idx.

(** [_advance], the slot connected to the timer's [timeout] signal *)
Definition advance : M unit :=
  s <-- get_state ;;
  set_current_index (current_index s + 1) ;;;
  s <-- get_state ;;
  if len (words s) <=? current_index s then
    pause ;;;
    set_current_index (len (words s) - 1) ;;;
    emit finished
  else
    emit (word_changed (current_word s)) ;;;
    p <-- lift (progress s) ;;
    emit (progress_changed p) ;;;
    update_timer_interval.

(** ** Runs of the engine *)

(** The public operations. *)
Inductive Op : Type :=
| Load (text : str)
| Play
| Pause
| TogglePlayPause
| Stop
| Seek (index : Z)
| SeekPercent (percent : float)
| SkipForward (n : Z)
| SkipBackward (n : Z)
| PreviousSentence
| NextSentence
| SetRate (value : Z).

Definition call (o : Op) : M unit :=
  match o with
  | Load t => load_text t
  | Play => play
  | Pause => pause
  | TogglePlayPause => toggle_play_pause
  | Stop => stop
  | Seek i => seek i
  | SeekPercent p => seek_percent p
  | SkipForward n => skip_forward n
  | SkipBackward n => skip_backward n
  | PreviousSentence => previous_sentence
  | NextSentence => next_sentence
  | SetRate v => set_wpm v
  end.

(** What happens to the engine: a caller invokes an operation, or the
    timer fires. *)
Inductive Action : Type :=
| Call (o : Op)
| Tick.

(** One step.  A call is a step when it returns; the timer's tick runs
    [_advance], and fires only while the engine is playing. *)
Inductive step : RSVPEngine -> Action -> list Signal -> RSVPEngine -> Prop :=
| step_call o e e' out :
    call o e = Ok (tt, e', out) ->
    step e (Call o) out e'
| step_tick e e' out :
    is_playing (state e) = true ->
    advance e = Ok (tt, e', out) ->
    step e Tick out e'.

(** A run: the steps taken, each with the signals it emitted. *)
Inductive run : RSVPEngine -> list (Action * list Signal) -> RSVPEngine -> Prop :=
| run_nil e : run e [] e
| run_cons e a out e1 tr e2 :
    step e a out e1 -> run e1 tr e2 -> run e ((a, out) :: tr) e2.

Definition reachable (e : RSVPEngine) : Prop :=
  exists tr, run init tr e.

End Engine.

Import Engine.

(* ================================================================== *)
(** * Specification-level definitions *)
(* ================================================================== *)

(** The focus-index table of the specification, by token length. *)
Definition focus_table (L : Z) : Z :=
  if L <=? 3 then 0
  else if L <=? 5 then 1
  else if L <=? 9 then 2
  else if L <=? 13 then 3
  else 4.

Definition nonspace (c : char) : bool := negb (isspace c).

(** What may follow a token: the end of the text, or a whitespace. *)
Definition token_ends (rest : str) : Prop :=
  match rest with
  | [] => True
  | c :: _ => isspace c = true
  end.

(** [Tokens s ts]: [ts] are the maximal whitespace-separated tokens of
    [s], in order.  Each token is a non-empty run of non-whitespace that
    starts after a (possibly empty) run of whitespace and is followed by a
    whitespace or by the end of the text. *)
Inductive Tokens : str -> list str -> Prop :=
| Tokens_nil ws :
    forallb isspace ws = true ->
    Tokens ws []
| Tokens_cons ws t rest ts :
    forallb isspace ws = true ->
    t <> [] ->
    forallb nonspace t = true ->
    token_ends rest ->
    Tokens rest ts ->
    Tokens (ws ++ t ++ rest) (t :: ts).

(** A word as [process_text] builds it from its raw token. *)
Definition built_from_text (w : Word) : Prop :=
  text w <> []
  /\ orp_index w = calculate_orp (text w)
  /\ calculate_pause_multiplier (text w) = Ok (pause_after w).

(** The pause multipliers [calculate_pause_multiplier] can return. *)
Definition pause_factors : list float :=
  [1.0%float; 1.2%float; 1.5%float; 2.5%float].

(** The timer interval in milliseconds at rate [rate] for a word whose
    pause multiplier is [factor] ([None]: no current word). *)
Definition interval_ms (rate : Z) (factor : option float) : Res Z :=
  base_interval <- truediv 60000 rate ;;
  int_of_float
    match factor with
    | Some f => PrimFloat.mul base_interval f
    | None => base_interval
    end.

(** The percentage [progress] computes when there are words. *)
Definition progress_of (s : RSVPState) : float :=
  PrimFloat.mul
    (PrimFloat.div (float_of_Z (current_index s)) (float_of_Z (len (words s))))
    (float_of_Z 100).

(** The cursor invariant of the specification. *)
Definition cursor_ok (s : RSVPState) : Prop :=
  if is_empty (words s) then current_index s = 0
  else 0 <= current_index s < len (words s).

(** What holds of the engine between any two steps. *)
Definition Inv (e : RSVPEngine) : Prop :=
  cursor_ok (state e)
  /\ (is_playing (state e) = true -> words (state e) <> [])
  /\ timer_active e = is_playing (state e)
  /\ 50 <= wpm (state e) <= 2000
  /\ Forall (fun w => In (pause_after w) pause_factors) (words (state e)).

(** The largest integer not above a finite float. *)
Definition floor_SF (x : spec_float) : Res Z :=
  match x with
  | S754_zero _ => Ok 0
  | S754_finite s m e =>
      let n := if s then Z.neg m else Z.pos m in
      Ok (if 0 <=? e then n * 2 ^ e else n / 2 ^ (- e))
  | S754_infinity _ => Raise OverflowError
  | S754_nan => Raise ValueError
  end.

Definition floor_of_float (x : float) : Res Z := floor_SF (Prim2SF x).

(** The float that [seek_percent] truncates: [percent / 100 * n]. *)
Definition percent_product (percent : float) (n : Z) : float :=
  PrimFloat.mul (PrimFloat.div percent (float_of_Z 100)) (float_of_Z n).

(** [clamp_index n i] is [i] clamped to the indices of [n] words. *)
Definition clamp_index (n : Z) (i : Z) : Z := Z.max 0 (Z.min i (n - 1)).

(** The index as the specification writes it, [floor(p/100 * n)], with the
    product taken exactly: [percent] stands for the number [+-m * 2^e], and
    the floor is that of [+-m * 2^e * n / 100].  It follows the
    specification's words, to be compared with [percent_index], which
    follows the code. *)
Definition exact_percent_floor (percent : float) (n : Z) : Res Z :=
  match Prim2SF percent with
  | S754_zero _ => Ok 0
  | S754_finite s m e =>
      let v := (if s then Z.neg m else Z.pos m) * n in
      Ok (if 0 <=? e then (v * 2 ^ e) / 100 else v / (100 * 2 ^ (- e)))
  | S754_infinity _ => Raise OverflowError
  | S754_nan => Raise ValueError
  end.

(** A text of a hundred words. *)
Definition hundred_words : str := List.concat (repeat (of_string "word ") 100).

(** A sentence terminator: a word whose last character is one of
    ['.'], ['!'], ['?']. *)
Definition is_terminator (w : Word) : bool :=
  match rev (text w) with
  | [] => false
  | c :: _ => char_in c sentence_end
  end.

(** The engine a method leaves behind, when it returns. *)
Definition after (m : M unit) (e : RSVPEngine) : RSVPEngine :=
  match m e with
  | Ok (_, e', _) => e'
  | Raise _ => e
  end.

(** The signals a method emits, when it returns. *)
Definition emitted (m : M unit) (e : RSVPEngine) : list Signal :=
  match m e with
  | Ok (_, _, out) => out
  | Raise _ => []
  end.

(** The calls that start playback. *)
Definition starts_playback (a : Action) : Prop :=
  a = Call Play \/ a = Call TogglePlayPause.

(** The rates [2000], [1999], ... down to [2000 - n]. *)
Fixpoint rates_down (n : nat) : list Z :=
  match n with
  | O => [2000]
  | S n' => (2000 - Z.of_nat n) :: rates_down n'
  end.

Definition is_ok {A} (r : Res A) : bool :=
  match r with
  | Ok _ => true
  | Raise _ => false
  end.

(** The interval computation succeeds at [rate] for every multiplier. *)
Definition interval_defined (rate : Z) : bool :=
  is_ok (interval_ms rate None)
  && forallb (fun f => is_ok (interval_ms rate (Some f))) pause_factors.

(** Splits a membership in an explicit list of signals into its cases and
    closes those that name another signal. *)
Ltac signal_cases H :=
  cbn [In app] in H;
  repeat (destruct H as [H|H]; [try discriminate|]);
  try contradiction.

(** Unfolds the field assignments of the engine. *)
Ltac unfold_updates :=
  unfold with_index, with_words, with_wpm, with_playing, with_timer_active,
    with_timer_interval in *;
  cbn [state words current_index wpm is_playing timer_active timer_interval] in *.

(* ================================================================== *)
(** * More of rsvp_engine.py and of the Python it uses *)
(* ================================================================== *)


(** [RSVPEngine.word_count] *)
Definition word_count (e : RSVPEngine) : Z := len (words (state e)).

(** One period of the timer: its [timeout] runs [_advance] when the timer
    is active, and nothing happens when it is stopped. *)
Definition tick : M unit :=
  fun e => if timer_active e then advance e else Ok (tt, e, []).

(** [k] periods of the timer in a row, with no call in between. *)
Fixpoint ticks (k : nat) : M unit :=
  match k with
  | O => ret tt
  | S k' => bindM tick (fun _ => ticks k')
  end.

Definition is_finished (s : Signal) : bool :=
  match s with
  | finished => true
  | _ => false
  end.

Definition is_word_changed (s : Signal) : bool :=
  match s with
  | word_changed _ => true
  | _ => false
  end.

(** How many of the signals [out] satisfy [f]. *)
Definition count_signals (f : Signal -> bool) (out : list Signal) : nat :=
  List.length (filter f out).

(** [sep.join(parts)] *)
Fixpoint join (sep : str) (parts : list str) : str :=
  match parts with
  | [] => []
  | [t] => t
  | t :: rest => t ++ sep ++ join sep rest
  end.

(* ================================================================== *)
(** * settings.py *)
(* ================================================================== *)

Module Settings.

(** ** The Python lists and dicts it uses

    A method that Python can abort with [ValueError] or [KeyError]
    returns [None] there. *)

(** [a == b] on two [str] *)
Fixpoint str_eqb (a b : str) : bool :=
  match a, b with
  | [], [] => true
  | x :: a', y :: b' => (x =? y) && str_eqb a' b'
  | _, _ => false
  end.

(** [x in l] *)
Definition list_contains {A} (eqb : A -> A -> bool) (x : A) (l : list A)
  : bool :=
  existsb (eqb x) l.

(** [l.remove(x)]: the first [x] is removed; [ValueError] without one. *)
Fixpoint list_remove {A} (eqb : A -> A -> bool) (x : A) (l : list A)
  : option (list A) :=
  match l with
  | [] => None
  | y :: r =>
      if eqb x y then Some r
      else match list_remove eqb x r with
           | Some r' => Some (y :: r')
           | None => None
           end
  end.

(** [l.sort()] on a list of [int]: the ascending rearrangement. *)
Fixpoint insert_sorted (x : Z) (l : list Z) : list Z :=
  match l with
  | [] => [x]
  | y :: r => if x <=? y then x :: l else y :: insert_sorted x r
  end.

Definition list_sort (l : list Z) : list Z :=
  fold_right insert_sorted [] l.

(** A [dict] with [str] keys, as its items in insertion order. *)
Definition dict (V : Type) : Type := list (str * V).

(** [k in d] *)
Definition dict_contains {V} (k : str) (d : dict V) : bool :=
  existsb (fun kv => str_eqb k (fst kv)) d.

(** [d[k]]: [KeyError] when the key is missing. *)
Fixpoint dict_getitem {V} (k : str) (d : dict V) : option V :=
  match d with
  | [] => None
  | (k', v) :: r => if str_eqb k k' then Some v else dict_getitem k r
  end.

(** [d[k] = v]: the value of an existing key is replaced where it is, a
    new key goes to the end. *)
Fixpoint dict_setitem {V} (k : str) (v : V) (d : dict V) : dict V :=
  match d with
  | [] => [(k, v)]
  | (k', v') :: r =>
      if str_eqb k k' then (k', v) :: r else (k', v') :: dict_setitem k v r
  end.

(** [d.get(k, default)] *)
Definition dict_get {V} (k : str) (default : V) (d : dict V) : V :=
  match dict_getitem k d with
  | Some v => v
  | None => default
  end.

(** ** The settings *)

(** [@dataclass class RSVPSettings] *)
Record RSVPSettings : Type := mkSettings {
  wpm : Z;
  font_family : str;
  font_size : Z;
  text_color : str;
  background_color : str;
  orp_color : str;
  pause_at_paragraphs : bool;
  auto_save_position : bool;
  window_width : Z;
  window_height : Z;
  window_x : option Z;
  window_y : option Z;
  always_on_top : bool;
  recent_files : list str;
  max_recent_files : Z;
  bookmarks : dict (list Z)
}.

(** [RSVPSettings()] with its defaults. *)
Definition default : RSVPSettings :=
  mkSettings 300 (of_string "Arial") 48 (of_string "#FFFFFF")
             (of_string "#1E1E1E") (of_string "#FF6B6B") true true
             800 600 None None false [] 10 [].

Definition with_recent_files (rf : list str) (st : RSVPSettings)
  : RSVPSettings :=
  mkSettings (wpm st) (font_family st) (font_size st) (text_color st)
             (background_color st) (orp_color st) (pause_at_paragraphs st)
             (auto_save_position st) (window_width st) (window_height st)
             (window_x st) (window_y st) (always_on_top st)
             rf (max_recent_files st) (bookmarks st).

Definition with_bookmarks (bm : dict (list Z)) (st : RSVPSettings)
  : RSVPSettings :=
  mkSettings (wpm st) (font_family st) (font_size st) (text_color st)
             (background_color st) (orp_color st) (pause_at_paragraphs st)
             (auto_save_position st) (window_width st) (window_height st)
             (window_x st) (window_y st) (always_on_top st)
             (recent_files st) (max_recent_files st) bm.

(** ** Methods of SettingsManager

    They act on the manager's [_settings].  Each ends with [save()], which
    writes the settings to the configuration file, swallows an [IOError]
    and leaves [_settings] as it is; the file is not part of this model. *)

(** [SettingsManager.add_recent_file] *)
Definition add_recent_file (filepath : str) (st : RSVPSettings)
  : option RSVPSettings :=
  match (if list_contains str_eqb filepath (recent_files st)
         then list_remove str_eqb filepath (recent_files st)
         else Some (recent_files st)) with
  | Some removed =>
      let inserted := filepath :: removed in
      Some (with_recent_files (slice_to inserted (max_recent_files st)) st)
  | None => None
  end.

(** [SettingsManager.add_bookmark] *)
Definition add_bookmark (filepath : str) (word_index : Z) (st : RSVPSettings)
  : option RSVPSettings :=
  let bm := if dict_contains filepath (bookmarks st)
            then bookmarks st
            else dict_setitem filepath [] (bookmarks st) in
  match dict_getitem filepath bm with
  | Some l =>
      if list_contains Z.eqb word_index l
      then Some (with_bookmarks bm st)
      else
        Some (with_bookmarks
                (dict_setitem filepath (list_sort (l ++ [word_index])) bm) st)
  | None => None
  end.

(** [SettingsManager.remove_bookmark] *)
Definition remove_bookmark (filepath : str) (word_index : Z)
  (st : RSVPSettings) : option RSVPSettings :=
  if dict_contains filepath (bookmarks st)
  then
    match dict_getitem filepath (bookmarks st) with
    | Some l =>
        if list_contains Z.eqb word_index l
        then
          match list_remove Z.eqb word_index l with
          | Some l' =>
              Some (with_bookmarks (dict_setitem filepath l' (bookmarks st)) st)
          | None => None
          end
        else Some st
    | None => None
    end
  else Some st.

(** [SettingsManager.get_bookmarks] *)
Definition get_bookmarks (filepath : str) (st : RSVPSettings) : list Z :=
  dict_get filepath [] (bookmarks st).

End Settings.

(** A list of integers in strictly ascending order. *)
Definition ascending (l : list Z) : Prop := StronglySorted Z.lt l.

(* ================================================================== *)
(** * Python primitives *)
(* ================================================================== *)

Section PyFacts.

Context {A : Type}.
Implicit Types (l : list A) (i : Z).

Lemma len_nonneg l : 0 <= len l.
Proof. unfold len. lia. Qed.

Lemma len_app l1 l2 : len (l1 ++ l2) = len l1 + len l2.
Proof. unfold len. rewrite length_app. lia. Qed.

Lemma len_cons (a : A) l : len (a :: l) = 1 + len l.
Proof. unfold len. cbn [List.length]. lia. Qed.

Lemma is_empty_true l : is_empty l = true <-> l = [].
Proof. destruct l; cbn; split; congruence. Qed.

Lemma is_empty_false l : is_empty l = false <-> l <> [].
Proof. destruct l; cbn; split; congruence. Qed.

Lemma len_pos l : l <> [] -> 0 < len l.
Proof. destruct l; [congruence|]. rewrite len_cons. pose proof (len_nonneg l). lia. Qed.

(** In-range, non-negative indexing is [nth_error]. *)
Lemma getitem_nth l i :
  0 <= i < len l ->
  exists a, nth_error l (Z.to_nat i) = Some a /\ getitem l i = Ok a.
Proof.
  intros H. unfold getitem.
  destruct (Z.ltb_spec i 0); [lia|].
  destruct (Z.leb_spec 0 i); [|lia].
  destruct (Z.ltb_spec i (len l)); [|lia]. cbn [andb].
  destruct (nth_error l (Z.to_nat i)) eqn:E; [eauto|].
  apply nth_error_None in E. unfold len in *. lia.
Qed.

Lemma getitem_last pre (c : A) : getitem (pre ++ [c]) (-1) = Ok c.
Proof.
  unfold getitem. rewrite len_app, len_cons. change (len (@nil A)) with 0.
  pose proof (len_nonneg pre).
  change (-1 <? 0) with true. cbv iota.
  destruct (Z.leb_spec 0 (-1 + (len pre + (1 + 0)))); [|lia].
  destruct (Z.ltb_spec (-1 + (len pre + (1 + 0))) (len pre + (1 + 0))); [|lia].
  cbn [andb].
  replace (Z.to_nat (-1 + (len pre + (1 + 0)))) with (List.length pre + 0)%nat
    by (unfold len; lia).
  rewrite nth_error_app2 by lia.
  replace (List.length pre + 0 - List.length pre)%nat with 0%nat by lia.
  reflexivity.
Qed.

Lemma getitem_penultimate pre (p c : A) : getitem (pre ++ [p; c]) (-2) = Ok p.
Proof.
  unfold getitem. rewrite len_app, !len_cons. change (len (@nil A)) with 0.
  pose proof (len_nonneg pre).
  change (-2 <? 0) with true. cbv iota.
  destruct (Z.leb_spec 0 (-2 + (len pre + (1 + (1 + 0))))); [|lia].
  destruct (Z.ltb_spec (-2 + (len pre + (1 + (1 + 0)))) (len pre + (1 + (1 + 0)))); [|lia].
  cbn [andb].
  replace (Z.to_nat (-2 + (len pre + (1 + (1 + 0))))) with (List.length pre + 0)%nat
    by (unfold len; lia).
  rewrite nth_error_app2 by lia.
  replace (List.length pre + 0 - List.length pre)%nat with 0%nat by lia.
  reflexivity.
Qed.

(** A non-empty list ends with a last element. *)
Lemma snoc_of_nonempty l : l <> [] -> exists pre c, l = pre ++ [c].
Proof.
  intros H. destruct (exists_last H) as (pre & c & ->). eauto.
Qed.

(** The three views of [Word] cut a list around an in-range index. *)
Lemma slices_around l i :
  0 <= i < len l ->
  exists a, getitem l i = Ok a
            /\ slice_to l i ++ [a] ++ slice_from l (i + 1) = l.
Proof.
  intros H. destruct (getitem_nth l i H) as (a & Hn & Hg).
  exists a. split; [exact Hg|].
  unfold slice_to, slice_from, slice_bound.
  destruct (Z.ltb_spec i 0); [lia|].
  destruct (Z.ltb_spec (i + 1) 0); [lia|].
  rewrite !Z.min_l by lia.
  replace (Z.to_nat (i + 1)) with (S (Z.to_nat i)) by lia.
  revert Hn. generalize (Z.to_nat i). clear.
  induction l as [|x l IH]; intros [|n] Hn; cbn in *; try congruence.
  f_equal. apply IH. exact Hn.
Qed.

End PyFacts.

(* ================================================================== *)
(** * The tokenizer *)
(* ================================================================== *)

Section Splitting.

Lemma isspace_space : isspace 32 = true.
Proof. reflexivity. Qed.

Lemma forallb_rev_true {A} (f : A -> bool) l :
  forallb f l = true -> forallb f (rev l) = true.
Proof.
  rewrite !forallb_forall. intros H x Hx. apply H, in_rev, Hx.
Qed.

Lemma split_from_spaces ws s :
  forallb isspace ws = true ->
  split_from [] (ws ++ s) = split_from [] s.
Proof.
  induction ws as [|c ws IH]; cbn; [reflexivity|].
  intros H. apply andb_prop in H as [Hc Hws]. rewrite Hc. cbn. auto.
Qed.

Lemma split_from_token t cur s :
  forallb nonspace t = true ->
  split_from cur (t ++ s) = split_from (rev t ++ cur) s.
Proof.
  revert cur. induction t as [|c t IH]; intros cur; cbn; [reflexivity|].
  intros H. apply andb_prop in H as [Hc Ht].
  unfold nonspace in Hc. apply negb_true_iff in Hc. rewrite Hc.
  rewrite IH by exact Ht. rewrite <- app_assoc. reflexivity.
Qed.

Lemma split_from_end cur rest :
  cur <> [] ->
  token_ends rest ->
  split_from cur rest = rev cur :: split_from [] rest.
Proof.
  intros Hcur Hrest. apply is_empty_false in Hcur.
  destruct rest as [|c r]; cbn in *.
  - rewrite Hcur. reflexivity.
  - rewrite Hrest, Hcur. reflexivity.
Qed.

(** [Tokens] determines the token list: it is what [split] computes. *)
Lemma Tokens_split s ts : Tokens s ts -> split s = ts.
Proof.
  unfold split. induction 1 as [ws Hws | ws t rest ts Hws Ht Hns Hend _ IH].
  - rewrite <- (app_nil_r ws), split_from_spaces by exact Hws. reflexivity.
  - rewrite split_from_spaces by exact Hws.
    rewrite split_from_token by exact Hns.
    rewrite app_nil_r, split_from_end; [|destruct t; cbn; [congruence | intros E; apply app_eq_nil in E as [_ E]; discriminate]|exact Hend].
    rewrite rev_involutive, IH. reflexivity.
Qed.

Lemma Tokens_space c s ts :
  isspace c = true -> Tokens s ts -> Tokens (c :: s) ts.
Proof.
  intros Hc H. destruct H as [ws Hws | ws t rest ts Hws Ht Hns Hend Hrest].
  - apply Tokens_nil. cbn. rewrite Hc, Hws. reflexivity.
  - apply (Tokens_cons (c :: ws)); auto. cbn. rewrite Hc, Hws. reflexivity.
Qed.

Lemma split_from_Tokens s : forall cur,
  forallb nonspace cur = true ->
  Tokens (rev cur ++ s) (split_from cur s).
Proof.
  induction s as [|c r IH]; intros cur Hcur.
  - cbn [split_from]. destruct cur as [|x cur]; cbn [is_empty].
    + apply Tokens_nil. reflexivity.
    + apply (Tokens_cons [] (rev (x :: cur)) []).
      * reflexivity.
      * cbn. intros E. apply app_eq_nil in E as [_ E]. discriminate.
      * apply forallb_rev_true. exact Hcur.
      * exact I.
      * apply Tokens_nil. reflexivity.
  - cbn [split_from]. destruct (isspace c) eqn:Hc.
    + pose proof (IH [] eq_refl) as Hr. cbn in Hr.
      destruct cur as [|x cur]; cbn [is_empty].
      * cbn. apply Tokens_space; assumption.
      * apply (Tokens_cons [] (rev (x :: cur)) (c :: r)).
        -- reflexivity.
        -- cbn. intros E. apply app_eq_nil in E as [_ E]. discriminate.
        -- apply forallb_rev_true. exact Hcur.
        -- exact Hc.
        -- apply Tokens_space; assumption.
    + specialize (IH (c :: cur)). cbn [rev] in IH. rewrite <- app_assoc in IH.
      apply IH. cbn. unfold nonspace at 1. rewrite Hc. exact Hcur.
Qed.

Lemma split_Tokens s : Tokens s (split s).
Proof. exact (split_from_Tokens s [] eq_refl). Qed.

Lemma Tokens_nonempty s ts : Tokens s ts -> Forall (fun t => t <> []) ts.
Proof. induction 1; constructor; assumption. Qed.

(** Normalising the whitespace first does not change the tokens. *)
Lemma split_lstrip s : split (lstrip s) = split s.
Proof.
  unfold split. induction s as [|c r IH]; cbn; [reflexivity|].
  destruct (isspace c) eqn:Hc; cbn; [exact IH|]. rewrite Hc. reflexivity.
Qed.

Lemma split_from_rstrip s : forall cur,
  split_from cur (rstrip s) = split_from cur s.
Proof.
  induction s as [|c r IH]; intros cur; [reflexivity|].
  cbn [rstrip]. destruct (isspace c) eqn:Hc; cbn [andb].
  - destruct (is_empty (rstrip r)) eqn:He.
    + apply is_empty_true in He. cbn [split_from]. rewrite Hc.
      rewrite <- (IH []), He. cbn. destruct (is_empty cur); reflexivity.
    + cbn [split_from]. rewrite Hc, IH. reflexivity.
  - cbn [split_from]. rewrite Hc. apply IH.
Qed.

Lemma split_from_re_sub_ws s : forall in_run cur,
  (in_run = true -> cur = []) ->
  split_from cur (re_sub_ws in_run s) = split_from cur s.
Proof.
  induction s as [|c r IH]; intros in_run cur Hrun; [reflexivity|].
  cbn [re_sub_ws]. destruct (isspace c) eqn:Hc.
  - destruct in_run.
    + rewrite (Hrun eq_refl). cbn [split_from is_empty]. rewrite Hc.
      apply IH. reflexivity.
    + cbn [split_from]. rewrite isspace_space, Hc.
      rewrite (IH true []) by reflexivity. reflexivity.
  - cbn [split_from]. rewrite Hc. apply IH. discriminate.
Qed.

Lemma split_normalised s : split (re_sub_ws false (strip s)) = split s.
Proof.
  unfold split, strip. rewrite split_from_re_sub_ws by discriminate.
  rewrite split_from_rstrip. apply split_lstrip.
Qed.

Lemma split_nil_spaces s : split s = [] <-> forallb isspace s = true.
Proof.
  split.
  - intros H. pose proof (split_Tokens s) as T. rewrite H in T.
    inversion T. assumption.
  - intros H. apply Tokens_split. apply Tokens_nil. exact H.
Qed.

End Splitting.

Section Tokenizer.

Lemma calculate_orp_table word : calculate_orp word = focus_table (len word).
Proof.
  unfold calculate_orp, focus_table.
  destruct (Z.leb_spec (len word) 1), (Z.leb_spec (len word) 3); try lia; reflexivity.
Qed.

Lemma focus_table_mono L1 L2 : L1 <= L2 -> focus_table L1 <= focus_table L2.
Proof.
  unfold focus_table. intros H.
  repeat match goal with
         | |- context [?a <=? ?b] => destruct (Z.leb_spec a b)
         end; lia.
Qed.

Lemma focus_table_range L : 1 <= L -> 0 <= focus_table L < L.
Proof.
  unfold focus_table. intros H.
  repeat match goal with
         | |- context [?a <=? ?b] => destruct (Z.leb_spec a b)
         end; lia.
Qed.

(** The pause multiplier of a token, read off its last one or two
    characters. *)
Lemma calculate_pause_multiplier_last pre c :
  calculate_pause_multiplier (pre ++ [c]) =
  if char_in c sentence_end then Ok 2.5%float
  else if char_in c clause_sep then Ok 1.5%float
  else if char_in c closers then
    match rev pre with
    | p :: _ => if char_in p sentence_end then Ok 2.5%float else Ok 1.2%float
    | [] => Ok 1.2%float
    end
  else Ok 1.0%float.
Proof.
  unfold calculate_pause_multiplier.
  replace (is_empty (pre ++ [c])) with false by (destruct pre; reflexivity).
  rewrite getitem_last. cbn [Py.bind].
  destruct (char_in c sentence_end); [reflexivity|].
  destruct (char_in c clause_sep); [reflexivity|].
  destruct (char_in c closers); [|reflexivity].
  destruct (rev pre) as [|p q] eqn:E.
  - apply (f_equal (@rev _)) in E. rewrite rev_involutive in E. subst pre.
    reflexivity.
  - apply (f_equal (@rev _)) in E. rewrite rev_involutive in E. subst pre.
    cbn [rev]. rewrite <- app_assoc. cbn [app].
    rewrite getitem_penultimate.
    rewrite len_app, !len_cons. change (len (@nil char)) with 0.
    pose proof (len_nonneg (rev q)).
    destruct (Z.ltb_spec 1 (len (rev q) + (1 + (1 + 0)))); [|lia].
    reflexivity.
Qed.

Lemma calculate_pause_multiplier_total word :
  exists f, calculate_pause_multiplier word = Ok f /\ In f pause_factors.
Proof.
  destruct word as [|x word'] eqn:E.
  - exists 1.0%float. split; [reflexivity | cbn; auto].
  - destruct (@snoc_of_nonempty _ (x :: word')) as (pre & c & Hw); [discriminate|].
    rewrite Hw, calculate_pause_multiplier_last.
    unfold pause_factors.
    repeat match goal with
           | |- context [if ?b then _ else _] => destruct b
           | |- context [match ?l with [] => _ | _ :: _ => _ end] => destruct l
           end; eexists; (split; [reflexivity | cbn; auto 6]).
Qed.

Lemma process_words_spec raws : forall acc,
  Forall built_from_text acc ->
  exists ws,
    process_words raws acc = Ok ws
    /\ map text ws = map text acc ++ filter (fun t => negb (is_empty t)) raws
    /\ Forall built_from_text ws.
Proof.
  induction raws as [|raw rest IH]; intros acc Hacc; cbn [process_words filter].
  - exists acc. rewrite app_nil_r. auto.
  - destruct (is_empty raw) eqn:He; cbn [negb].
    + apply IH, Hacc.
    + destruct (calculate_pause_multiplier_total raw) as (f & Hf & _).
      rewrite Hf. cbn [Py.bind].
      destruct (IH (acc ++ [mkWord raw (calculate_orp raw) f])) as (ws & H1 & H2 & H3).
      * apply Forall_app. split; [exact Hacc|].
        constructor; [|constructor].
        unfold built_from_text. cbn. apply is_empty_false in He. auto.
      * exists ws. split; [exact H1|]. split; [|exact H3].
        rewrite H2, map_app, <- app_assoc. reflexivity.
Qed.

Lemma filter_nonempty (ts : list str) :
  Forall (fun t => t <> []) ts ->
  filter (fun t => negb (is_empty t)) ts = ts.
Proof.
  induction 1 as [|t ts Ht _ IH]; cbn; [reflexivity|].
  apply is_empty_false in Ht. rewrite Ht, IH. reflexivity.
Qed.

(** [process_text] always returns, with one word per token of the input,
    each built from its token. *)
Lemma process_text_spec s :
  exists ws,
    process_text s = Ok ws
    /\ map text ws = split s
    /\ Forall built_from_text ws.
Proof.
  unfold process_text.
  destruct (is_empty (re_sub_ws false (strip s))) eqn:He.
  - exists []. split; [reflexivity|]. split; [|constructor].
    apply is_empty_true in He.
    rewrite <- split_normalised, He. reflexivity.
  - destruct (process_words_spec (split (re_sub_ws false (strip s))) [])
      as (ws & H1 & H2 & H3); [constructor|].
    exists ws. split; [exact H1|]. split; [|exact H3].
    rewrite H2, split_normalised. cbn [map app].
    apply filter_nonempty, (Tokens_nonempty s), split_Tokens.
Qed.

Lemma process_text_built s ws w :
  process_text s = Ok ws -> In w ws -> built_from_text w.
Proof.
  intros Hs Hw. destruct (process_text_spec s) as (ws' & H1 & _ & H3).
  rewrite Hs in H1. injection H1 as <-.
  rewrite Forall_forall in H3. apply H3, Hw.
Qed.

Lemma process_text_pause s ws w :
  process_text s = Ok ws -> In w ws -> In (pause_after w) pause_factors.
Proof.
  intros Hs Hw. destruct (process_text_built s ws w Hs Hw) as (_ & _ & Hp).
  destruct (calculate_pause_multiplier_total (text w)) as (f & Hf & Hin).
  rewrite Hp in Hf. injection Hf as ->. exact Hin.
Qed.

End Tokenizer.

(** C7: every word that [process_text] emits has its focus index given by
    the length table (0 up to 3 characters, 1 up to 5, 2 up to 9, 3 up to
    13, 4 beyond), a table that is non-decreasing and stays below the
    length, and its pause multiplier given by its trailing character:
    2.5 after a sentence end, 1.5 after a clause separator, after a closing
    quote or parenthesis 2.5 when the character before it ends a sentence
    and 1.2 otherwise, and 1.0 after anything else. *)
Theorem tokenize_focus_and_pause s ws w :
  process_text s = Ok ws ->
  In w ws ->
  let L := len (text w) in
  orp_index w = focus_table L
  /\ (L <= 3 -> orp_index w = 0)
  /\ (4 <= L <= 5 -> orp_index w = 1)
  /\ (6 <= L <= 9 -> orp_index w = 2)
  /\ (10 <= L <= 13 -> orp_index w = 3)
  /\ (14 <= L -> orp_index w = 4)
  /\ (forall L1 L2, L1 <= L2 -> focus_table L1 <= focus_table L2)
  /\ 0 <= orp_index w < L
  /\ exists pre c,
       text w = pre ++ [c]
       /\ (char_in c sentence_end = true -> pause_after w = 2.5%float)
       /\ (char_in c clause_sep = true -> pause_after w = 1.5%float)
       /\ (char_in c closers = true ->
           (forall pre' p, pre = pre' ++ [p] ->
                           char_in p sentence_end = true ->
                           pause_after w = 2.5%float)
           /\ (forall pre' p, pre = pre' ++ [p] ->
                              char_in p sentence_end = false ->
                              pause_after w = 1.2%float)
           /\ (pre = [] -> pause_after w = 1.2%float))
       /\ (char_in c (sentence_end ++ clause_sep ++ closers) = false ->
           pause_after w = 1.0%float).
Proof.
  intros Hs Hw L.
  destruct (process_text_built s ws w Hs Hw) as (Hne & Horp & Hp).
  rewrite calculate_orp_table in Horp. fold L in Horp.
  assert (HL : 1 <= L) by (pose proof (len_pos _ Hne); subst L; lia).
  split; [exact Horp|].
  repeat (split; [rewrite Horp; unfold focus_table; intros;
                  repeat match goal with
                         | |- context [?a <=? ?b] => destruct (Z.leb_spec a b)
                         end; lia|]).
  split; [exact focus_table_mono|].
  split; [rewrite Horp; apply focus_table_range, HL|].
  destruct (snoc_of_nonempty _ Hne) as (pre & c & Ht).
  exists pre, c. split; [exact Ht|].
  rewrite Ht, calculate_pause_multiplier_last in Hp.
  assert (Hdisj : forall x, char_in x sentence_end = true ->
                  char_in x clause_sep = false /\ char_in x closers = false).
  { intros x. unfold char_in, sentence_end, clause_sep, closers. cbn.
    repeat match goal with
           | |- context [?a =? ?b] => destruct (Z.eqb_spec a b)
           end; cbn; intros; try lia; auto; discriminate. }
  assert (Hdisj2 : forall x, char_in x clause_sep = true -> char_in x closers = false).
  { intros x. unfold char_in, clause_sep, closers. cbn.
    repeat match goal with
           | |- context [?a =? ?b] => destruct (Z.eqb_spec a b)
           end; cbn; intros; try lia; auto; discriminate. }
  split; [|split; [|split]].
  - intros Hc. rewrite Hc in Hp. congruence.
  - intros Hc. destruct (char_in c sentence_end) eqn:E1.
    + destruct (Hdisj c E1). congruence.
    + rewrite Hc in Hp. congruence.
  - intros Hc. destruct (char_in c sentence_end) eqn:E1.
    { destruct (Hdisj c E1). congruence. }
    destruct (char_in c clause_sep) eqn:E2.
    { pose proof (Hdisj2 c E2). congruence. }
    rewrite Hc in Hp.
    split; [|split].
    + intros pre' p -> Hq. rewrite rev_app_distr in Hp. cbn [rev app] in Hp.
      rewrite Hq in Hp. congruence.
    + intros pre' p -> Hq. rewrite rev_app_distr in Hp. cbn [rev app] in Hp.
      rewrite Hq in Hp. congruence.
    + intros ->. cbn [rev] in Hp. congruence.
  - intros Hc. unfold char_in in Hc. rewrite !existsb_app in Hc.
    apply orb_false_iff in Hc as [E1 Hc]. apply orb_false_iff in Hc as [E2 E3].
    change (char_in c sentence_end = false) in E1.
    change (char_in c clause_sep = false) in E2.
    change (char_in c closers = false) in E3.
    rewrite E1, E2, E3 in Hp. congruence.
Qed.

Lemma tokenize_focus_and_pause_witness :
  exists ws w,
    process_text (of_string "Hello. How are you?") = Ok ws
    /\ In w ws
    /\ orp_index w = 2
    /\ 0 <= orp_index w < len (text w).
Proof.
  eexists. exists (mkWord (of_string "Hello.") 2 2.5%float).
  assert (Hs : process_text (of_string "Hello. How are you?")
               = Ok [mkWord (of_string "Hello.") 2 2.5%float;
                     mkWord (of_string "How") 0 1.0%float;
                     mkWord (of_string "are") 0 1.0%float;
                     mkWord (of_string "you?") 1 2.5%float])
    by (vm_compute; reflexivity).
  assert (Hw : In (mkWord (of_string "Hello.") 2 2.5%float)
                  [mkWord (of_string "Hello.") 2 2.5%float;
                   mkWord (of_string "How") 0 1.0%float;
                   mkWord (of_string "are") 0 1.0%float;
                   mkWord (of_string "you?") 1 2.5%float])
    by (left; reflexivity).
  pose proof (tokenize_focus_and_pause _ _ _ Hs Hw) as H.
  split; [exact Hs|]. split; [exact Hw|].
  split; [reflexivity|].
  apply H.
Defined.

(** C8: [process_text] returns normally on every input; the result is
    empty exactly when the input has no non-whitespace character, and
    otherwise holds one word per maximal whitespace-separated token, in
    the order of the input, each with a non-empty text. *)
Theorem tokenize_total s :
  exists ws,
    process_text s = Ok ws
    /\ (ws = [] <-> forallb isspace s = true)
    /\ Tokens s (map text ws)
    /\ Forall (fun w => text w <> []) ws.
Proof.
  destruct (process_text_spec s) as (ws & H1 & H2 & H3).
  exists ws. split; [exact H1|]. split; [|split].
  - rewrite <- split_nil_spaces, <- H2. destruct ws; cbn; split; congruence.
  - rewrite H2. apply split_Tokens.
  - eapply Forall_impl; [|exact H3]. intros w Hw. apply Hw.
Qed.

Lemma tokenize_total_witness :
  process_text [] = Ok []
  /\ process_text [32; 32; 32; 10; 9; 32] = Ok [].
Proof.
  split.
  - destruct (tokenize_total []) as (ws & H1 & H2 & _).
    rewrite H1. f_equal. apply H2. reflexivity.
  - destruct (tokenize_total [32; 32; 32; 10; 9; 32]) as (ws & H1 & H2 & _).
    rewrite H1. f_equal. apply H2. reflexivity.
Defined.

(** C10: for every word that [process_text] emits, the focus index lies
    inside the text, the focus character is a single character, and the
    text before it, the character and the text after it give back the
    stored text. *)
Theorem orp_views_reconstruct s ws w :
  process_text s = Ok ws ->
  In w ws ->
  0 <= orp_index w < len (text w)
  /\ exists c,
       orp_char w = Ok [c]
       /\ before_orp w ++ [c] ++ after_orp w = text w.
Proof.
  intros Hs Hw.
  destruct (process_text_built s ws w Hs Hw) as (Hne & Horp & _).
  assert (Hr : 0 <= orp_index w < len (text w)).
  { rewrite Horp, calculate_orp_table. apply focus_table_range.
    pose proof (len_pos _ Hne). lia. }
  split; [exact Hr|].
  destruct (slices_around (text w) (orp_index w) Hr) as (c & Hg & Hcut).
  exists c. unfold orp_char, before_orp, after_orp.
  destruct (Z.ltb_spec (orp_index w) (len (text w))); [|lia].
  rewrite Hg. split; [reflexivity | exact Hcut].
Qed.

Lemma orp_views_reconstruct_witness :
  exists ws w,
    process_text (of_string "Hello world") = Ok ws
    /\ In w ws
    /\ exists c, orp_char w = Ok [c]
                 /\ before_orp w ++ [c] ++ after_orp w = text w.
Proof.
  assert (Hs : process_text (of_string "Hello world")
               = Ok [mkWord (of_string "Hello") 1 1.0%float;
                     mkWord (of_string "world") 1 1.0%float])
    by (vm_compute; reflexivity).
  assert (Hw : In (mkWord (of_string "world") 1 1.0%float)
                  [mkWord (of_string "Hello") 1 1.0%float;
                   mkWord (of_string "world") 1 1.0%float])
    by (right; left; reflexivity).
  eexists. eexists. split; [exact Hs|]. split; [exact Hw|].
  apply (orp_views_reconstruct _ _ _ Hs Hw).
Defined.

(* ================================================================== *)
(** * The engine: what each method does *)
(* ================================================================== *)

Section Methods.

Implicit Types (e : RSVPEngine) (s : RSVPState).

Lemma In_rates_down n r :
  2000 - Z.of_nat n <= r <= 2000 -> In r (rates_down n).
Proof.
  induction n as [|n IH]; intros H.
  - left. cbn in H. lia.
  - cbn [rates_down].
    destruct (Z.eq_dec r (2000 - Z.of_nat (S n))) as [->|Hne].
    + left. reflexivity.
    + right. apply IH. lia.
Qed.

Lemma interval_defined_all : forallb interval_defined (rates_down 1950) = true.
Proof. vm_compute. reflexivity. Qed.

(** With the rate in its range and a multiplier of the tokenizer, the
    interval computation neither divides by zero nor overflows. *)
Lemma interval_ms_total rate factor :
  50 <= rate <= 2000 ->
  match factor with Some f => In f pause_factors | None => True end ->
  exists ms, interval_ms rate factor = Ok ms.
Proof.
  intros Hr Hf.
  pose proof interval_defined_all as H. rewrite forallb_forall in H.
  specialize (H rate (In_rates_down 1950 rate ltac:(lia))).
  unfold interval_defined in H. apply andb_prop in H as [H0 H1].
  destruct factor as [f|].
  - rewrite forallb_forall in H1. specialize (H1 f Hf).
    destruct (interval_ms rate (Some f)); [eauto | discriminate].
  - destruct (interval_ms rate None); [eauto | discriminate].
Qed.

Lemma update_timer_interval_eq e :
  update_timer_interval e =
  match interval_ms (wpm (state e))
                    (option_map pause_after (current_word (state e))) with
  | Ok ms => Ok (tt, with_timer_interval ms e, [])
  | Raise x => Raise x
  end.
Proof.
  unfold update_timer_interval, interval_ms, bindM, get_state, lift,
    timer_setInterval.
  destruct (truediv 60000 (wpm (state e))) as [b|x]; cbn [Py.bind]; [|reflexivity].
  destruct (current_word (state e)) as [w|]; cbn [option_map];
    destruct (int_of_float _); reflexivity.
Qed.

Lemma current_word_factor e :
  Forall (fun w => In (pause_after w) pause_factors) (words (state e)) ->
  match option_map pause_after (current_word (state e)) with
  | Some f => In f pause_factors
  | None => True
  end.
Proof.
  intros H. unfold current_word.
  destruct (_ && _); cbn [option_map]; [|exact I].
  destruct (nth_error _ _) as [w|] eqn:E; cbn [option_map]; [|exact I].
  rewrite Forall_forall in H. apply H. eapply nth_error_In, E.
Qed.

Lemma progress_eq s :
  words s <> [] -> progress s = Ok (progress_of s).
Proof.
  intros H. unfold progress, progress_of, truediv.
  apply is_empty_false in H. rewrite H. apply is_empty_false in H.
  pose proof (len_pos _ H).
  destruct (Z.eqb_spec (len (words s)) 0); [lia|]. reflexivity.
Qed.

Lemma pause_eq e :
  pause e = Ok (tt, with_timer_active false (with_playing false e),
                [state_changed]).
Proof. reflexivity. Qed.

Lemma stop_eq e :
  stop e =
  let e' := with_index 0 (with_timer_active false (with_playing false e)) in
  Ok (tt, e',
      state_changed :: progress_changed 0.0%float ::
        (if is_empty (words (state e)) then []
         else [word_changed (current_word (state e'))])).
Proof.
  unfold stop, bindM, set_is_playing, timer_stop, set_current_index, emit,
    get_state, ret.
  cbn. destruct (is_empty (words (state e))); reflexivity.
Qed.

Lemma seek_empty index e :
  words (state e) = [] -> seek index e = Ok (tt, e, []).
Proof.
  intros H. unfold seek, bindM, get_state. cbn. rewrite H. reflexivity.
Qed.

Lemma seek_eq index e :
  words (state e) <> [] ->
  seek index e =
  let e' := with_index (clamp_index (len (words (state e))) index) e in
  Ok (tt, e',
      [word_changed (current_word (state e'));
       progress_changed (progress_of (state e'))]).
Proof.
  intros H. unfold seek, bindM, get_state, set_current_index, emit, lift.
  cbn [fst snd]. cbv beta iota.
  pose proof H as H'. apply is_empty_false in H'. rewrite H'.
  cbv beta iota zeta.
  rewrite progress_eq by exact H. reflexivity.
Qed.

Lemma bindM_get_state {B} (k : RSVPState -> M B) e :
  bindM get_state k e = k (state e) e.
Proof.
  unfold bindM, get_state. destruct (k (state e) e) as [[[b e2] out]|]; reflexivity.
Qed.

Lemma toggle_play_pause_eq e :
  toggle_play_pause e = if is_playing (state e) then pause e else play e.
Proof.
  unfold toggle_play_pause. rewrite bindM_get_state.
  destruct (is_playing (state e)); reflexivity.
Qed.

Lemma skip_forward_eq n e : skip_forward n e = seek (current_index (state e) + n) e.
Proof. unfold skip_forward. rewrite bindM_get_state. reflexivity. Qed.

Lemma skip_backward_eq n e : skip_backward n e = seek (current_index (state e) - n) e.
Proof. unfold skip_backward. rewrite bindM_get_state. reflexivity. Qed.

Lemma play_empty e : words (state e) = [] -> play e = Ok (tt, e, []).
Proof.
  intros H. unfold play. rewrite bindM_get_state, H. reflexivity.
Qed.

Lemma play_eq e :
  words (state e) <> [] ->
  play e =
  let e1 := if len (words (state e)) - 1 <=? current_index (state e)
            then with_index 0 e else e in
  let e2 := with_playing true e1 in
  match interval_ms (wpm (state e2))
                    (option_map pause_after (current_word (state e2))) with
  | Ok ms => Ok (tt, with_timer_active true (with_timer_interval ms e2),
                 [state_changed])
  | Raise x => Raise x
  end.
Proof.
  intros H. unfold play. rewrite bindM_get_state.
  apply is_empty_false in H. rewrite H.
  cbv zeta.
  destruct (len (words (state e)) - 1 <=? current_index (state e));
    unfold bindM at 1 2; unfold set_current_index, ret, set_is_playing;
    unfold bindM; rewrite update_timer_interval_eq;
    match goal with
    | |- context [interval_ms ?a ?b] => destruct (interval_ms a b)
    end; reflexivity.
Qed.

Lemma advance_eq e :
  words (state e) <> [] ->
  advance e =
  let e1 := with_index (current_index (state e) + 1) e in
  if len (words (state e)) <=? current_index (state e) + 1
  then Ok (tt,
           with_index (len (words (state e)) - 1)
             (with_timer_active false (with_playing false e1)),
           [state_changed; finished])
  else
    match interval_ms (wpm (state e1))
                      (option_map pause_after (current_word (state e1))) with
    | Ok ms => Ok (tt, with_timer_interval ms e1,
                   [word_changed (current_word (state e1));
                    progress_changed (progress_of (state e1))])
    | Raise x => Raise x
    end.
Proof.
  intros H. unfold advance. rewrite bindM_get_state.
  unfold bindM at 1. unfold set_current_index at 1.
  rewrite bindM_get_state. cbv zeta.
  change (words (state (with_index (current_index (state e) + 1) e)))
    with (words (state e)).
  change (current_index (state (with_index (current_index (state e) + 1) e)))
    with (current_index (state e) + 1).
  destruct (len (words (state e)) <=? current_index (state e) + 1).
  - reflexivity.
  - unfold bindM, emit, lift. rewrite progress_eq by exact H.
    rewrite update_timer_interval_eq.
    match goal with
    | |- context [interval_ms ?a ?b] => destruct (interval_ms a b)
    end; reflexivity.
Qed.

Lemma set_wpm_eq value e :
  set_wpm value e =
  let e1 := with_wpm (Z.max 50 (Z.min 2000 value)) e in
  if is_playing (state e)
  then match interval_ms (wpm (state e1))
                         (option_map pause_after (current_word (state e1))) with
       | Ok ms => Ok (tt, with_timer_interval ms e1, [])
       | Raise x => Raise x
       end
  else Ok (tt, e1, []).
Proof.
  unfold set_wpm. unfold bindM at 1. unfold set_wpm_field.
  rewrite bindM_get_state. cbv zeta.
  change (is_playing (state (with_wpm (Z.max 50 (Z.min 2000 value)) e)))
    with (is_playing (state e)).
  destruct (is_playing (state e)).
  - rewrite update_timer_interval_eq.
    match goal with
    | |- context [interval_ms ?a ?b] => destruct (interval_ms a b)
    end; reflexivity.
  - reflexivity.
Qed.

Lemma load_text_eq t e ws :
  process_text t = Ok ws ->
  load_text t e =
  let e0 := with_index 0 (with_timer_active false (with_playing false e)) in
  let e' := with_index 0 (with_words ws e0) in
  Ok (tt, e',
      (state_changed :: progress_changed 0.0%float ::
         (if is_empty (words (state e)) then []
          else [word_changed (current_word (state e0))]))
      ++ [state_changed; progress_changed 0.0%float;
          word_changed (if is_empty ws then None
                        else current_word (state e'))]).
Proof.
  intros H. unfold load_text. unfold bindM at 1. rewrite stop_eq. cbv zeta.
  unfold bindM, lift, set_words, set_current_index, emit, get_state.
  rewrite H. cbn [state words with_index with_words].
  destruct (is_empty ws); reflexivity.
Qed.

(** ** Sentence navigation *)

Lemma ends_sentence_eq w : ends_sentence w = Ok (is_terminator w).
Proof.
  unfold ends_sentence, is_terminator.
  destruct (text w) as [|x t] eqn:E; [reflexivity|].
  destruct (@snoc_of_nonempty _ (x :: t)) as (pre & c & Hw); [discriminate|].
  rewrite Hw, getitem_last, rev_app_distr.
  replace (is_empty (pre ++ [c])) with false by (destruct pre; reflexivity).
  reflexivity.
Qed.

Lemma next_sentence_from_step left idx e :
  next_sentence_from (S left) idx e =
  match getitem (words (state e)) idx with
  | Ok w => if is_terminator w then seek (idx + 1) e
            else next_sentence_from left (idx + 1) e
  | Raise x => Raise x
  end.
Proof.
  cbn [next_sentence_from]. rewrite bindM_get_state.
  unfold bindM at 1. unfold lift at 1.
  destruct (getitem (words (state e)) idx) as [w|x]; [|reflexivity].
  unfold bindM at 1. unfold lift at 1. rewrite ends_sentence_eq.
  destruct (is_terminator w).
  - destruct (seek (idx + 1) e) as [[[[] e2] out]|]; reflexivity.
  - destruct (next_sentence_from left (idx + 1) e) as [[[[] e2] out]|]; reflexivity.
Qed.

Lemma next_sentence_from_end idx e :
  next_sentence_from O idx e = seek (len (words (state e)) - 1) e.
Proof. cbn [next_sentence_from]. apply bindM_get_state. Qed.

Lemma previous_sentence_from_step idx e :
  previous_sentence_from (S idx) e =
  match getitem (words (state e)) (Z.of_nat (S idx)) with
  | Ok w => if is_terminator w then seek (Z.of_nat (S idx) + 1) e
            else previous_sentence_from idx e
  | Raise x => Raise x
  end.
Proof.
  cbn [previous_sentence_from]. rewrite bindM_get_state.
  unfold bindM at 1. unfold lift at 1.
  destruct (getitem (words (state e)) (Z.of_nat (S idx))) as [w|x]; [|reflexivity].
  unfold bindM at 1. unfold lift at 1. rewrite ends_sentence_eq.
  destruct (is_terminator w).
  - destruct (seek (Z.of_nat (S idx) + 1) e) as [[[[] e2] out]|]; reflexivity.
  - destruct (previous_sentence_from idx e) as [[[[] e2] out]|]; reflexivity.
Qed.

(** Both navigation methods end in exactly one [seek]. *)
Lemma next_sentence_from_seek e : forall left idx,
  0 <= idx ->
  idx + Z.of_nat left <= len (words (state e)) - 1 ->
  exists j, next_sentence_from left idx e = seek j e.
Proof.
  induction left as [|left IH]; intros idx H0 H1.
  - rewrite next_sentence_from_end. eauto.
  - rewrite next_sentence_from_step.
    destruct (getitem_nth (words (state e)) idx ltac:(lia)) as (w & _ & ->).
    destruct (is_terminator w); [eauto|].
    apply IH; lia.
Qed.

Lemma previous_sentence_from_seek e : forall idx,
  Z.of_nat idx < len (words (state e)) ->
  exists j, previous_sentence_from idx e = seek j e.
Proof.
  induction idx as [|idx IH]; intros H.
  - cbn [previous_sentence_from]. eauto.
  - rewrite previous_sentence_from_step.
    destruct (getitem_nth (words (state e)) (Z.of_nat (S idx)) ltac:(lia))
      as (w & _ & ->).
    destruct (is_terminator w); [eauto|].
    apply IH. lia.
Qed.

Lemma next_sentence_seek e :
  words (state e) <> [] ->
  0 <= current_index (state e) ->
  exists j, next_sentence e = seek j e.
Proof.
  intros Hne H0. unfold next_sentence. rewrite bindM_get_state.
  apply is_empty_false in Hne. rewrite Hne. cbv zeta.
  apply is_empty_false in Hne. pose proof (len_pos _ Hne).
  destruct (Z.le_gt_cases (current_index (state e)) (len (words (state e)) - 1)).
  - apply next_sentence_from_seek; lia.
  - replace (Z.to_nat _) with O by lia.
    rewrite next_sentence_from_end. eauto.
Qed.

Lemma previous_sentence_seek e :
  words (state e) <> [] ->
  current_index (state e) <= len (words (state e)) ->
  exists j, previous_sentence e = seek j e.
Proof.
  intros Hne H0. unfold previous_sentence. rewrite bindM_get_state.
  apply is_empty_false in Hne. rewrite Hne.
  apply is_empty_false in Hne. pose proof (len_pos _ Hne).
  apply previous_sentence_from_seek. lia.
Qed.

End Methods.

(* ================================================================== *)
(** * The engine: invariant and totality *)
(* ================================================================== *)

Section Invariant.

Implicit Types (e : RSVPEngine).

Lemma Inv_init : Inv init.
Proof.
  unfold Inv, cursor_ok, init. cbn.
  repeat split; try lia; try discriminate. constructor.
Qed.

Lemma cursor_ok_nonempty s :
  words s <> [] -> cursor_ok s -> 0 <= current_index s < len (words s).
Proof.
  unfold cursor_ok. intros H. apply is_empty_false in H. rewrite H. auto.
Qed.

Lemma Inv_with_index i e :
  Inv e ->
  (if is_empty (words (state e)) then i = 0
   else 0 <= i < len (words (state e))) ->
  Inv (with_index i e).
Proof.
  intros (Hc & Hp & Ht & Hw & Hf) Hi.
  unfold Inv, cursor_ok. unfold_updates. auto.
Qed.

Lemma Inv_stopped i e :
  Inv e ->
  (if is_empty (words (state e)) then i = 0
   else 0 <= i < len (words (state e))) ->
  Inv (with_index i (with_timer_active false (with_playing false e))).
Proof.
  intros (Hc & Hp & Ht & Hw & Hf) Hi.
  unfold Inv, cursor_ok. unfold_updates.
  repeat split; auto; try lia; discriminate.
Qed.

Lemma Inv_with_timer_interval ms e : Inv e -> Inv (with_timer_interval ms e).
Proof. intros H. exact H. Qed.

Lemma clamp_index_range n i : 0 < n -> 0 <= clamp_index n i < n.
Proof. unfold clamp_index. lia. Qed.

Lemma seek_Inv i e e' out :
  Inv e -> seek i e = Ok (tt, e', out) -> Inv e'.
Proof.
  intros HI H. destruct (words (state e)) as [|w ws] eqn:E.
  - rewrite seek_empty in H by exact E. injection H as <- _. exact HI.
  - rewrite seek_eq in H by (rewrite E; discriminate).
    cbv zeta in H. injection H as <- _.
    apply Inv_with_index; [exact HI|].
    rewrite E. cbn [is_empty]. rewrite <- E.
    apply clamp_index_range, len_pos. rewrite E. discriminate.
Qed.

Lemma interval_ms_Inv e :
  Inv e ->
  exists ms, interval_ms (wpm (state e))
               (option_map pause_after (current_word (state e))) = Ok ms.
Proof.
  intros (_ & _ & _ & Hw & Hf).
  apply interval_ms_total; [exact Hw | apply current_word_factor, Hf].
Qed.

(** The interval [play] computes is defined. *)
Lemma play_Inv_interval e :
  Inv e ->
  words (state e) <> [] ->
  let e1 := if len (words (state e)) - 1 <=? current_index (state e)
            then with_index 0 e else e in
  let e2 := with_playing true e1 in
  exists ms, interval_ms (wpm (state e2))
               (option_map pause_after (current_word (state e2))) = Ok ms.
Proof.
  intros (Hc & Hp & Ht & Hw & Hf) Hne e1 e2.
  apply interval_ms_total.
  - subst e2 e1. destruct (_ <=? _); exact Hw.
  - apply current_word_factor. subst e2 e1. destruct (_ <=? _); exact Hf.
Qed.

Lemma play_Inv e e' out : Inv e -> play e = Ok (tt, e', out) -> Inv e'.
Proof.
  intros HI H. destruct (words (state e)) as [|w ws] eqn:E.
  - rewrite play_empty in H by exact E. injection H as <- _. exact HI.
  - assert (Hne : words (state e) <> []) by (rewrite E; discriminate).
    rewrite play_eq in H by exact Hne. cbv zeta in H.
    destruct (interval_ms _ _) as [ms|] in H; [|discriminate].
    injection H as <- _.
    destruct HI as (Hc & Hp & Ht & Hw & Hf).
    pose proof (cursor_ok_nonempty _ Hne Hc) as Hr.
    apply is_empty_false in Hne.
    unfold Inv, cursor_ok.
    destruct (len (words (state e)) - 1 <=? current_index (state e));
      unfold_updates; rewrite Hne; repeat split; auto; try lia;
      intros _; apply is_empty_false, Hne.
Qed.

Lemma pause_Inv e e' out : Inv e -> pause e = Ok (tt, e', out) -> Inv e'.
Proof.
  intros HI H. rewrite pause_eq in H. injection H as <- _.
  destruct HI as (Hc & Hp & Ht & Hw & Hf).
  unfold Inv, cursor_ok. unfold_updates. repeat split; auto; try lia; discriminate.
Qed.

Lemma stop_Inv e e' out : Inv e -> stop e = Ok (tt, e', out) -> Inv e'.
Proof.
  intros HI H. rewrite stop_eq in H. cbv zeta in H. injection H as <- _.
  apply Inv_stopped; [exact HI|].
  destruct (words (state e)) eqn:E; cbn [is_empty]; [reflexivity|].
  rewrite <- E. pose proof (len_pos (words (state e))). rewrite E in *.
  specialize (H ltac:(discriminate)). lia.
Qed.

Lemma load_text_Inv t e e' out :
  Inv e -> load_text t e = Ok (tt, e', out) -> Inv e'.
Proof.
  intros HI H. destruct (process_text_spec t) as (ws & Hws & _ & _).
  rewrite (load_text_eq _ _ _ Hws) in H. cbv zeta in H. injection H as <- _.
  destruct HI as (Hc & Hp & Ht & Hw & Hf).
  unfold Inv, cursor_ok. unfold_updates.
  repeat split; auto; try lia; try discriminate.
  - destruct ws as [|w ws']; cbn [is_empty]; [reflexivity|].
    rewrite len_cons. pose proof (len_nonneg ws'). lia.
  - apply Forall_forall. intros w Hin.
    eapply process_text_pause; eassumption.
Qed.

Lemma seek_percent_Inv p e e' out :
  Inv e -> seek_percent p e = Ok (tt, e', out) -> Inv e'.
Proof.
  intros HI H. unfold seek_percent in H. rewrite bindM_get_state in H.
  destruct (is_empty (words (state e))).
  - injection H as <- _. exact HI.
  - unfold bindM, lift in H.
    destruct (percent_index p (len (words (state e)))) as [i|]; [|discriminate].
    destruct (seek i e) as [[[[] e2] out2]|] eqn:Hs; [|discriminate].
    injection H as <- _. eapply seek_Inv; eassumption.
Qed.

Lemma set_wpm_Inv v e e' out :
  Inv e -> set_wpm v e = Ok (tt, e', out) -> Inv e'.
Proof.
  intros HI H. rewrite set_wpm_eq in H. cbv zeta in H.
  assert (HI' : Inv (with_wpm (Z.max 50 (Z.min 2000 v)) e)).
  { destruct HI as (Hc & Hp & Ht & Hw & Hf).
    unfold Inv, cursor_ok. unfold_updates. repeat split; auto; lia. }
  destruct (is_playing (state e)).
  - destruct (interval_ms _ _) as [ms|] in H; [|discriminate].
    injection H as <- _. exact HI'.
  - injection H as <- _. exact HI'.
Qed.

Lemma call_Inv o e e' out :
  Inv e -> call o e = Ok (tt, e', out) -> Inv e'.
Proof.
  intros HI H. destruct o; cbn [call] in H.
  - eapply load_text_Inv; eassumption.
  - eapply play_Inv; eassumption.
  - eapply pause_Inv; eassumption.
  - rewrite toggle_play_pause_eq in H. destruct (is_playing (state e)).
    + eapply pause_Inv; eassumption.
    + eapply play_Inv; eassumption.
  - eapply stop_Inv; eassumption.
  - eapply seek_Inv; eassumption.
  - eapply seek_percent_Inv; eassumption.
  - rewrite skip_forward_eq in H. eapply seek_Inv; eassumption.
  - rewrite skip_backward_eq in H. eapply seek_Inv; eassumption.
  - destruct (words (state e)) eqn:E.
    + unfold previous_sentence in H. rewrite bindM_get_state, E in H.
      injection H as <- _. exact HI.
    + assert (Hne : words (state e) <> []) by (rewrite E; discriminate).
      pose proof (cursor_ok_nonempty _ Hne (proj1 HI)).
      destruct (previous_sentence_seek e Hne ltac:(lia)) as (j & Hj).
      rewrite Hj in H. eapply seek_Inv; eassumption.
  - destruct (words (state e)) eqn:E.
    + unfold next_sentence in H. rewrite bindM_get_state, E in H.
      injection H as <- _. exact HI.
    + assert (Hne : words (state e) <> []) by (rewrite E; discriminate).
      pose proof (cursor_ok_nonempty _ Hne (proj1 HI)).
      destruct (next_sentence_seek e Hne ltac:(lia)) as (j & Hj).
      rewrite Hj in H. eapply seek_Inv; eassumption.
  - eapply set_wpm_Inv; eassumption.
Qed.

Lemma advance_Inv e e' out :
  Inv e -> is_playing (state e) = true ->
  advance e = Ok (tt, e', out) -> Inv e'.
Proof.
  intros HI Hplay H.
  assert (Hne : words (state e) <> []) by (apply HI, Hplay).
  pose proof (cursor_ok_nonempty _ Hne (proj1 HI)) as Hr.
  rewrite advance_eq in H by exact Hne. cbv zeta in H.
  destruct (Z.leb_spec (len (words (state e))) (current_index (state e) + 1)).
  - injection H as <- _.
    destruct HI as (Hc & Hp & Ht & Hw & Hf).
    unfold Inv, cursor_ok. unfold_updates.
    apply is_empty_false in Hne. rewrite Hne.
    repeat split; auto; try lia; discriminate.
  - destruct (interval_ms _ _) as [ms|] in H; [|discriminate].
    injection H as <- _.
    apply Inv_with_index; [exact HI|].
    apply is_empty_false in Hne. rewrite Hne. lia.
Qed.

End Invariant.

Section Runs.

Implicit Types (e : RSVPEngine).

Lemma step_Inv e a out e' : Inv e -> step e a out e' -> Inv e'.
Proof.
  intros HI H. destruct H as [o e e' out H | e e' out Hp H].
  - eapply call_Inv; eassumption.
  - eapply advance_Inv; eassumption.
Qed.

Lemma run_Inv e tr e' : run e tr e' -> Inv e -> Inv e'.
Proof.
  induction 1 as [e | e a out e1 tr e2 Hstep _ IH]; intros HI; [exact HI|].
  apply IH. eapply step_Inv; eassumption.
Qed.

Lemma reachable_Inv e : reachable e -> Inv e.
Proof. intros (tr & H). eapply run_Inv; [exact H | exact Inv_init]. Qed.

Lemma run_app e1 tr1 e2 tr2 e3 :
  run e1 tr1 e2 -> run e2 tr2 e3 -> run e1 (tr1 ++ tr2) e3.
Proof.
  induction 1 as [e | e a out e1 tr e2 Hstep _ IH]; intros H; [exact H|].
  cbn. econstructor; [exact Hstep | apply IH, H].
Qed.

Lemma reachable_step e a out e' : reachable e -> step e a out e' -> reachable e'.
Proof.
  intros (tr & H) Hs. exists (tr ++ [(a, out)]).
  eapply run_app; [exact H|]. econstructor; [exact Hs | constructor].
Qed.

(** ** No call but [play] starts playback, and no call emits [finished] *)

Lemma seek_quiet i e e' out :
  seek i e = Ok (tt, e', out) ->
  is_playing (state e') = is_playing (state e) /\ ~ In finished out.
Proof.
  intros H. destruct (words (state e)) as [|w ws] eqn:E.
  - rewrite seek_empty in H by exact E. injection H as <- <-. auto.
  - rewrite seek_eq in H by (rewrite E; discriminate).
    cbv zeta in H. injection H as <- <-. split; [reflexivity|].
    cbn. intros [H|[H|[]]]; discriminate.
Qed.

Lemma call_quiet o e e' out :
  Inv e ->
  call o e = Ok (tt, e', out) ->
  ~ starts_playback (Call o) ->
  is_playing (state e) = false ->
  is_playing (state e') = false /\ ~ In finished out.
Proof.
  intros HI H Hnp Hoff. unfold starts_playback in Hnp.
  destruct o as [t| | | | |i|percent|n|n| | |v]; cbn [call] in H.
  - destruct (process_text_spec t) as (ws & Hws & _ & _).
    rewrite (load_text_eq _ _ _ Hws) in H. cbv zeta in H.
    injection H as <- <-. split; [reflexivity|].
    destruct (is_empty (words (state e))); cbn [app In]; intros Hin;
      repeat (destruct Hin as [Hin|Hin]; [discriminate|]); exact Hin.
  - exfalso. apply Hnp. left. reflexivity.
  - rewrite pause_eq in H. injection H as <- <-. split; [reflexivity|].
    cbn. intros [Hin|[]]. discriminate.
  - exfalso. apply Hnp. right. reflexivity.
  - rewrite stop_eq in H. cbv zeta in H. injection H as <- <-.
    split; [reflexivity|].
    destruct (is_empty (words (state e))); cbn; intros Hin;
      repeat (destruct Hin as [Hin|Hin]; [discriminate|]); exact Hin.
  - destruct (seek_quiet _ _ _ _ H) as [H1 H2]. rewrite H1. auto.
  - unfold seek_percent in H. rewrite bindM_get_state in H.
    destruct (is_empty (words (state e))).
    + injection H as <- <-. auto.
    + unfold bindM, lift in H.
      destruct (percent_index percent (len (words (state e)))) as [i|]; [|discriminate].
      destruct (seek i e) as [[[[] e2] out2]|] eqn:Hs; [|discriminate].
      injection H as <- <-. cbn [app].
      destruct (seek_quiet _ _ _ _ Hs) as [H1 H2]. rewrite H1. auto.
  - rewrite skip_forward_eq in H.
    destruct (seek_quiet _ _ _ _ H) as [H1 H2]. rewrite H1. auto.
  - rewrite skip_backward_eq in H.
    destruct (seek_quiet _ _ _ _ H) as [H1 H2]. rewrite H1. auto.
  - destruct (words (state e)) eqn:E.
    + unfold previous_sentence in H. rewrite bindM_get_state, E in H.
      injection H as <- <-. auto.
    + assert (Hne : words (state e) <> []) by (rewrite E; discriminate).
      pose proof (cursor_ok_nonempty _ Hne (proj1 HI)).
      destruct (previous_sentence_seek e Hne ltac:(lia)) as (j & Hj).
      rewrite Hj in H.
      destruct (seek_quiet _ _ _ _ H) as [H1 H2]. rewrite H1. auto.
  - destruct (words (state e)) eqn:E.
    + unfold next_sentence in H. rewrite bindM_get_state, E in H.
      injection H as <- <-. auto.
    + assert (Hne : words (state e) <> []) by (rewrite E; discriminate).
      pose proof (cursor_ok_nonempty _ Hne (proj1 HI)).
      destruct (next_sentence_seek e Hne ltac:(lia)) as (j & Hj).
      rewrite Hj in H.
      destruct (seek_quiet _ _ _ _ H) as [H1 H2]. rewrite H1. auto.
  - rewrite set_wpm_eq in H. cbv zeta in H. rewrite Hoff in H.
    injection H as <- <-. auto.
Qed.

(** While the engine is not playing and nobody calls [play], the timer
    does not fire and [finished] is not emitted. *)
Lemma run_quiet e tr e' :
  run e tr e' ->
  Inv e ->
  is_playing (state e) = false ->
  (forall a out, In (a, out) tr -> ~ starts_playback a) ->
  forall a out, In (a, out) tr -> a <> Tick /\ ~ In finished out.
Proof.
  induction 1 as [e | e a0 out0 e1 tr e2 Hstep _ IH];
    intros HI Hoff Hnp a out Hin; [destruct Hin|].
  destruct Hstep as [o e e1 out0 Hcall | e e1 out0 Hplay _]; [|congruence].
  destruct (call_quiet _ _ _ _ HI Hcall (Hnp _ _ (or_introl eq_refl)) Hoff)
    as [Hoff1 Hquiet].
  destruct Hin as [Heq|Hin].
  - injection Heq as <- <-. split; [discriminate | exact Hquiet].
  - apply (IH (call_Inv _ _ _ _ HI Hcall) Hoff1); [|exact Hin].
    intros a' out' Hin'. apply (Hnp a' out'). right. exact Hin'.
Qed.

End Runs.

Section Reaching.

Lemma returns_after (m : M unit) e :
  is_ok (m e) = true -> m e = Ok (tt, after m e, emitted m e).
Proof.
  unfold after, emitted. destruct (m e) as [[[[] e'] out]|]; [reflexivity|discriminate].
Qed.

Lemma reachable_init : reachable init.
Proof. exists []. constructor. Qed.

Lemma reachable_call o e :
  reachable e -> is_ok (call o e) = true -> reachable (after (call o) e).
Proof.
  intros Hr Hok. eapply reachable_step; [exact Hr|].
  apply step_call, returns_after, Hok.
Qed.

Lemma reachable_tick e :
  reachable e -> is_playing (state e) = true -> is_ok (advance e) = true ->
  reachable (after advance e).
Proof.
  intros Hr Hp Hok. eapply reachable_step; [exact Hr|].
  apply step_tick; [exact Hp | apply returns_after, Hok].
Qed.

End Reaching.

(** C2: in every state reached from a fresh engine by public operations
    and by timer ticks fired while playing, the cursor is a valid index
    into the words when there are words, and is 0 when there are none. *)
Theorem cursor_invariant e :
  reachable e ->
  (words (state e) <> [] ->
   0 <= current_index (state e) < len (words (state e)))
  /\ (words (state e) = [] -> current_index (state e) = 0).
Proof.
  intros Hr. destruct (reachable_Inv e Hr) as (Hc & _).
  unfold cursor_ok in Hc. split; intros H.
  - apply is_empty_false in H. rewrite H in Hc. exact Hc.
  - apply is_empty_true in H. rewrite H in Hc. exact Hc.
Qed.

Lemma cursor_invariant_witness :
  let e := after (call (SkipForward 10))
             (after (call (Load (of_string "one two three"))) init) in
  reachable e
  /\ current_index (state e) = 2
  /\ 0 <= current_index (state e) < len (words (state e)).
Proof.
  intros e.
  assert (Hr : reachable e).
  { apply reachable_call; [apply reachable_call; [apply reachable_init|]|];
      vm_compute; reflexivity. }
  split; [exact Hr|]. split; [vm_compute; reflexivity|].
  apply (cursor_invariant e Hr). vm_compute. discriminate.
Defined.

(** C1: a tick that moves the cursor to or past the number of words stops
    the timer, clears the playing flag, pins the cursor on the last word
    and emits [finished], with no [word_changed] and no
    [progress_changed].  From then on, as long as [play] is not invoked,
    the timer does not fire again and [finished] is not emitted again. *)
Theorem tick_at_end_finishes e :
  reachable e ->
  is_playing (state e) = true ->
  len (words (state e)) <= current_index (state e) + 1 ->
  exists e' out,
    advance e = Ok (tt, e', out)
    /\ out = [state_changed; finished]
    /\ (forall w, ~ In (word_changed w) out)
    /\ (forall p, ~ In (progress_changed p) out)
    /\ timer_active e' = false
    /\ is_playing (state e') = false
    /\ current_index (state e') = len (words (state e)) - 1
    /\ words (state e') = words (state e)
    /\ (forall out' e'', ~ step e' Tick out' e'')
    /\ (forall tr e'',
          run e' tr e'' ->
          (forall a out', In (a, out') tr -> ~ starts_playback a) ->
          forall a out', In (a, out') tr -> a <> Tick /\ ~ In finished out').
Proof.
  intros Hr Hplay Hend.
  pose proof (reachable_Inv e Hr) as HI.
  assert (Hne : words (state e) <> []) by (apply HI, Hplay).
  pose proof (advance_eq e Hne) as Heq. cbv zeta in Heq.
  destruct (Z.leb_spec (len (words (state e))) (current_index (state e) + 1)); [|lia].
  eexists. eexists. split; [exact Heq|].
  split; [reflexivity|].
  split; [intros w [H'|[H'|[]]]; discriminate|].
  split; [intros p [H'|[H'|[]]]; discriminate|].
  repeat (split; [reflexivity|]).
  assert (HI' : Inv (with_index (len (words (state e)) - 1)
                       (with_timer_active false
                          (with_playing false
                             (with_index (current_index (state e) + 1) e))))).
  { eapply advance_Inv; [exact HI | exact Hplay | exact Heq]. }
  split.
  - intros out' e'' Hstep. inversion Hstep as [|? ? ? Hp _]; subst.
    cbn in Hp. discriminate.
  - intros tr e'' Hrun Hnp. eapply run_quiet; [exact Hrun | exact HI' | reflexivity | exact Hnp].
Qed.

Lemma tick_at_end_finishes_witness :
  let e := after (call Play)
             (after (call (Load (of_string "one"))) init) in
  reachable e
  /\ is_playing (state e) = true
  /\ exists e' out, advance e = Ok (tt, e', out)
                    /\ out = [state_changed; finished]
                    /\ is_playing (state e') = false.
Proof.
  intros e.
  assert (Hr : reachable e).
  { apply reachable_call; [apply reachable_call; [apply reachable_init|]|];
      vm_compute; reflexivity. }
  assert (Hp : is_playing (state e) = true) by (vm_compute; reflexivity).
  assert (Hend : len (words (state e)) <= current_index (state e) + 1)
    by (vm_compute; discriminate).
  split; [exact Hr|]. split; [exact Hp|].
  destruct (tick_at_end_finishes e Hr Hp Hend)
    as (e' & out & H1 & H2 & _ & _ & _ & H3 & _).
  exists e', out. auto.
Defined.



(** C6: on a non-empty word list [seek(i)] sets the cursor to [i] clamped
    to the valid indices and leaves the words, the rate, the playing flag
    and the timer as they were; on an empty one it does nothing.
    [skip_forward(n)] and [skip_backward(n)] are [seek] at the cursor plus
    and minus [n]; after loading "one two three", [skip_forward(10)]
    leaves the cursor at 2. *)
Theorem seek_frame :
  (forall i e,
      (words (state e) = [] -> seek i e = Ok (tt, e, []))
      /\ (words (state e) <> [] ->
          exists e' out,
            seek i e = Ok (tt, e', out)
            /\ current_index (state e')
               = Z.max 0 (Z.min i (len (words (state e)) - 1))
            /\ words (state e') = words (state e)
            /\ wpm (state e') = wpm (state e)
            /\ is_playing (state e') = is_playing (state e)
            /\ timer_active e' = timer_active e
            /\ timer_interval e' = timer_interval e))
  /\ (forall n e,
         skip_forward n e = seek (current_index (state e) + n) e
         /\ skip_backward n e = seek (current_index (state e) - n) e)
  /\ (exists e' out,
         bindM (load_text (of_string "one two three"))
               (fun _ => skip_forward 10) init = Ok (tt, e', out)
         /\ current_index (state e') = 2).
Proof.
  split; [|split].
  - intros i e. split; [apply seek_empty|].
    intros Hne. rewrite seek_eq by exact Hne. cbv zeta.
    eexists. eexists. split; [reflexivity|].
    repeat split.
  - intros n e. split; [apply skip_forward_eq | apply skip_backward_eq].
  - eexists. eexists. split; [vm_compute; reflexivity | reflexivity].
Qed.

Lemma seek_frame_witness :
  let e := after (load_text (of_string "one two three")) init in
  words (state e) <> []
  /\ exists e' out, seek 100 e = Ok (tt, e', out)
                    /\ current_index (state e') = 2
                    /\ is_playing (state e') = false.
Proof.
  intros e.
  assert (Hne : words (state e) <> []) by (vm_compute; discriminate).
  split; [exact Hne|].
  destruct (proj2 (proj1 seek_frame 100 e) Hne)
    as (e' & out & H1 & H2 & _ & _ & H3 & _).
  exists e', out. split; [exact H1|]. split.
  - rewrite H2. vm_compute. reflexivity.
  - rewrite H3. vm_compute. reflexivity.
Defined.

(** C9: the [wpm] setter stores its argument clamped to [50, 2000], so the
    stored rate is positive and the division of 60000 by it in the interval
    computation is defined; when the engine is playing the setter sets the
    timer at once to the interval for the new rate and the current word,
    and otherwise leaves the timer alone. *)
Theorem set_rate_spec v e :
  reachable e ->
  50 <= wpm (state e) <= 2000
  /\ exists e',
       set_wpm v e = Ok (tt, e', [])
       /\ wpm (state e') = Z.max 50 (Z.min 2000 v)
       /\ 50 <= wpm (state e') <= 2000
       /\ 0 < wpm (state e')
       /\ (exists base, truediv 60000 (wpm (state e')) = Ok base)
       /\ (exists ms, update_timer_interval e' = Ok (tt, with_timer_interval ms e', []))
       /\ (is_playing (state e) = true ->
           interval_ms (wpm (state e'))
             (option_map pause_after (current_word (state e')))
           = Ok (timer_interval e'))
       /\ (is_playing (state e) = false -> timer_interval e' = timer_interval e)
       /\ words (state e') = words (state e)
       /\ current_index (state e') = current_index (state e)
       /\ is_playing (state e') = is_playing (state e)
       /\ timer_active e' = timer_active e.
Proof.
  intros Hr. pose proof (reachable_Inv e Hr) as HI.
  split; [apply HI|].
  assert (HI1 : Inv (with_wpm (Z.max 50 (Z.min 2000 v)) e)).
  { destruct HI as (Hc & Hp & Ht & Hw & Hf).
    unfold Inv, cursor_ok. unfold_updates. repeat split; auto; lia. }
  destruct (interval_ms_Inv _ HI1) as (ms & Hms).
  assert (Hdiv : forall r, 50 <= r <= 2000 -> exists base, truediv 60000 r = Ok base).
  { intros r Hrange. unfold truediv.
    destruct (Z.eqb_spec r 0); [lia|]. eauto. }
  assert (Htimer : forall e0, Inv e0 ->
            exists ms0, update_timer_interval e0 = Ok (tt, with_timer_interval ms0 e0, [])).
  { intros e0 HI0. rewrite update_timer_interval_eq.
    destruct (interval_ms_Inv _ HI0) as (ms0 & ->). eauto. }
  rewrite set_wpm_eq. cbv zeta.
  destruct (is_playing (state e)) eqn:Hplay.
  - rewrite Hms. eexists. split; [reflexivity|].
    split; [reflexivity|]. split; [cbn; lia|]. split; [cbn; lia|].
    split; [apply Hdiv; cbn; lia|].
    split; [apply Htimer, HI1|].
    split; [intros _; exact Hms|].
    split; [discriminate|].
    repeat split. cbn. exact Hplay.
  - eexists. split; [reflexivity|].
    split; [reflexivity|]. split; [cbn; lia|]. split; [cbn; lia|].
    split; [apply Hdiv; cbn; lia|].
    split; [apply Htimer, HI1|].
    split; [discriminate|].
    split; [reflexivity|].
    repeat split. cbn. exact Hplay.
Qed.

Lemma set_rate_spec_witness :
  let e := after (call Play)
             (after (call (Load (of_string "Stop. Go"))) init) in
  reachable e
  /\ exists e', set_wpm (-7) e = Ok (tt, e', [])
                /\ wpm (state e') = 50
                /\ timer_interval e' = 3000.
Proof.
  intros e.
  assert (Hr : reachable e).
  { apply reachable_call; [apply reachable_call; [apply reachable_init|]|];
      vm_compute; reflexivity. }
  split; [exact Hr|].
  destruct (set_rate_spec (-7) e Hr) as (_ & e' & H1 & H2 & _).
  exists e'. split; [exact H1|]. split; [exact H2|].
  assert (Hc : set_wpm (-7) e
               = Ok (tt, with_timer_interval 3000 (with_wpm 50 e), []))
    by (vm_compute; reflexivity).
  rewrite Hc in H1. injection H1 as <-. reflexivity.
Defined.

Section NextSentence.

Variable e : RSVPEngine.

Lemma is_terminator_iff w :
  is_terminator w = true <->
  exists pre c, text w = pre ++ [c] /\ char_in c sentence_end = true.
Proof.
  unfold is_terminator. split.
  - destruct (rev (text w)) as [|c r] eqn:E; [discriminate|].
    intros H. exists (rev r), c. split; [|exact H].
    rewrite <- (rev_involutive (text w)), E. reflexivity.
  - intros (pre & c & -> & H). rewrite rev_app_distr. exact H.
Qed.

(** The loop stops at the first terminator it meets below the last
    index. *)
Lemma next_sentence_from_found idx w : forall left i0,
  0 <= i0 <= idx ->
  idx < len (words (state e)) - 1 ->
  left = Z.to_nat (len (words (state e)) - 1 - i0) ->
  nth_error (words (state e)) (Z.to_nat idx) = Some w ->
  is_terminator w = true ->
  (forall j w', i0 <= j < idx ->
                nth_error (words (state e)) (Z.to_nat j) = Some w' ->
                is_terminator w' = false) ->
  next_sentence_from left i0 e = seek (idx + 1) e.
Proof.
  induction left as [|left IH]; intros i0 Hi Hidx Hleft Hw Ht Hnone; [lia|].
  rewrite next_sentence_from_step.
  destruct (getitem_nth (words (state e)) i0 ltac:(lia)) as (w0 & Hn0 & Hg0).
  rewrite Hg0.
  destruct (Z.eq_dec i0 idx) as [->|Hneq].
  - rewrite Hn0 in Hw. injection Hw as ->. rewrite Ht. reflexivity.
  - rewrite (Hnone i0 w0 ltac:(lia) Hn0).
    apply IH; try lia; try assumption.
    intros j w' Hj. apply Hnone. lia.
Qed.

(** With no terminator below the last index, the loop runs out. *)
Lemma next_sentence_from_none : forall left i0,
  0 <= i0 ->
  left = Z.to_nat (len (words (state e)) - 1 - i0) ->
  (forall j w', i0 <= j < len (words (state e)) - 1 ->
                nth_error (words (state e)) (Z.to_nat j) = Some w' ->
                is_terminator w' = false) ->
  next_sentence_from left i0 e = seek (len (words (state e)) - 1) e.
Proof.
  induction left as [|left IH]; intros i0 Hi Hleft Hnone.
  - apply next_sentence_from_end.
  - rewrite next_sentence_from_step.
    destruct (getitem_nth (words (state e)) i0 ltac:(lia)) as (w0 & Hn0 & Hg0).
    rewrite Hg0.
    rewrite (Hnone i0 w0 ltac:(lia) Hn0).
    apply IH; try lia.
    intros j w' Hj. apply Hnone. lia.
Qed.

Lemma next_sentence_unfold :
  words (state e) <> [] ->
  next_sentence e
  = next_sentence_from
      (Z.to_nat (len (words (state e)) - 1 - current_index (state e)))
      (current_index (state e)) e.
Proof.
  intros Hne. unfold next_sentence. rewrite bindM_get_state.
  apply is_empty_false in Hne. rewrite Hne. reflexivity.
Qed.

End NextSentence.

(** C5: on a non-empty word list [next_sentence] looks at the indices from
    the cursor upward that lie below the last index; it seeks to the index
    after the first one whose word ends in ['.'], ['!'] or ['?'], and to
    the last index when there is none.  After loading
    "First sentence. Second sentence. Third." and [seek(0)], it makes
    "Second" the current word. *)
Theorem next_sentence_spec :
  (forall e,
      words (state e) <> [] ->
      0 <= current_index (state e) ->
      let ws := words (state e) in
      let c := current_index (state e) in
      (forall idx w,
          c <= idx < len ws - 1 ->
          nth_error ws (Z.to_nat idx) = Some w ->
          (exists pre ch, text w = pre ++ [ch] /\ char_in ch sentence_end = true) ->
          (forall j w', c <= j < idx -> nth_error ws (Z.to_nat j) = Some w' ->
                        is_terminator w' = false) ->
          next_sentence e = seek (idx + 1) e)
      /\ ((forall j w', c <= j < len ws - 1 ->
                        nth_error ws (Z.to_nat j) = Some w' ->
                        is_terminator w' = false) ->
          next_sentence e = seek (len ws - 1) e))
  /\ (forall w, is_terminator w = false <->
                ~ exists pre ch, text w = pre ++ [ch]
                                 /\ char_in ch sentence_end = true)
  /\ (exists e' out w,
         bindM (load_text (of_string "First sentence. Second sentence. Third."))
               (fun _ => bindM (seek 0) (fun _ => next_sentence)) init
         = Ok (tt, e', out)
         /\ current_word (state e') = Some w
         /\ text w = of_string "Second").
Proof.
  split; [|split].
  - intros e Hne Hc ws c. subst ws c. split.
    + intros idx w Hidx Hw Hterm Hnone.
      rewrite next_sentence_unfold by exact Hne.
      eapply next_sentence_from_found; try eassumption; try reflexivity.
      * lia.
      * lia.
      * apply is_terminator_iff, Hterm.
    + intros Hnone. rewrite next_sentence_unfold by exact Hne.
      apply next_sentence_from_none; [exact Hc | reflexivity | exact Hnone].
  - intros w. rewrite <- is_terminator_iff.
    destruct (is_terminator w); split; congruence.
  - eexists. eexists. eexists.
    split; [vm_compute; reflexivity|]. split; vm_compute; reflexivity.
Qed.

Lemma next_sentence_spec_witness :
  let e := after (seek 0)
             (after (load_text
                       (of_string "First sentence. Second sentence. Third."))
                    init) in
  words (state e) <> []
  /\ 0 <= current_index (state e)
  /\ next_sentence e = seek 2 e.
Proof.
  intros e.
  assert (Hne : words (state e) <> []) by (vm_compute; discriminate).
  assert (Hc : 0 <= current_index (state e)) by (vm_compute; discriminate).
  split; [exact Hne|]. split; [exact Hc|].
  apply (proj1 (proj1 next_sentence_spec e Hne Hc) 1
           (mkWord (of_string "sentence.") 2 2.5%float)).
  - vm_compute. split; [discriminate | reflexivity].
  - vm_compute. reflexivity.
  - exists (of_string "sentence"), 46. split; reflexivity.
  - intros j w' Hj Hw'.
    assert (j = 0) as -> by (change (current_index (state e)) with 0 in Hj; lia).
    vm_compute in Hw'. injection Hw' as <-. reflexivity.
Defined.

(* ================================================================== *)
(** * Binary64 facts behind [seek_percent] *)
(* ================================================================== *)

Section Binary64.

Lemma digits2_pos_lower p : 2 ^ (Z.pos (digits2_pos p) - 1) <= Z.pos p.
Proof.
  induction p as [p IH|p IH|]; cbn [digits2_pos].
  - rewrite Pos2Z.inj_succ.
    replace (Z.succ (Z.pos (digits2_pos p)) - 1)
      with (Z.succ (Z.pos (digits2_pos p) - 1)) by lia.
    rewrite Z.pow_succ_r by lia. lia.
  - rewrite Pos2Z.inj_succ.
    replace (Z.succ (Z.pos (digits2_pos p)) - 1)
      with (Z.succ (Z.pos (digits2_pos p) - 1)) by lia.
    rewrite Z.pow_succ_r by lia. lia.
  - cbn. lia.
Qed.

Lemma digits2_pos_bound p : Z.pos p < 2 ^ 53 -> Z.pos (digits2_pos p) <= 53.
Proof.
  intros H.
  destruct (Z.le_gt_cases (Z.pos (digits2_pos p)) 53) as [|Hgt]; [assumption|].
  pose proof (digits2_pos_lower p).
  assert (2 ^ 53 <= 2 ^ (Z.pos (digits2_pos p) - 1))
    by (apply Z.pow_le_mono_r; lia).
  lia.
Qed.

Lemma digits2_pos_iter p k :
  digits2_pos (Pos.iter xO p k) = (digits2_pos p + k)%positive.
Proof.
  induction k as [|k IH] using Pos.peano_ind.
  - cbn. lia.
  - rewrite Pos.iter_succ. cbn [digits2_pos]. rewrite IH. lia.
Qed.

Lemma Zpos_iter_xO p k : Z.pos (Pos.iter xO p k) = Z.pos p * 2 ^ Z.pos k.
Proof.
  induction k as [|k IH] using Pos.peano_ind.
  - cbn. lia.
  - rewrite Pos.iter_succ, Pos2Z.inj_xO, IH, Pos2Z.inj_succ, Z.pow_succ_r by lia.
    lia.
Qed.

(** A 53-bit mantissa with an exponent in range needs no rounding. *)
Lemma binary_round_aux_exact s m e :
  digits2_pos m = 53%positive ->
  -1074 <= e <= 971 ->
  binary_round_aux prec emax s (Z.pos m) e loc_Exact = S754_finite s m e.
Proof.
  intros Hd He.
  assert (Hshift : fexp prec emax (Z.pos (digits2_pos m) + e) - e = 0).
  { rewrite Hd. unfold fexp, SpecFloat.emin, prec, emax. lia. }
  unfold binary_round_aux, shr_fexp. cbn [Zdigits2 shr_record_of_loc].
  rewrite Hshift.
  cbn [shr shr_m loc_of_shr_record round_nearest_even Zdigits2 shr_record_of_loc].
  rewrite Hshift. cbn [shr shr_m].
  unfold emax, prec. destruct (Z.leb_spec e (1024 - 53)); [reflexivity | lia].
Qed.

Lemma valid_binary_53 s m e :
  digits2_pos m = 53%positive ->
  -1074 <= e <= 971 ->
  valid_binary (S754_finite s m e) = true.
Proof.
  intros Hd He. unfold SpecFloat.valid_binary, bounded, canonical_mantissa.
  rewrite Hd. unfold fexp, SpecFloat.emin, prec, emax.
  apply andb_true_intro. split; [apply Z.eqb_eq | apply Z.leb_le]; lia.
Qed.

(** A positive integer below 2^53 converts to a float of the same value. *)
Lemma binary_normalize_int p :
  Z.pos p < 2 ^ 53 ->
  exists m e,
    binary_normalize prec emax (Z.pos p) 0 false = S754_finite false m e
    /\ digits2_pos m = 53%positive
    /\ -52 <= e <= 0
    /\ Z.pos m = Z.pos p * 2 ^ (- e).
Proof.
  intros Hp. pose proof (digits2_pos_bound p Hp) as Hd.
  cbn [binary_normalize]. unfold binary_round, shl_align.
  assert (Hf : fexp prec emax (Z.pos (digits2_pos p) + 0)
               = Z.pos (digits2_pos p) - 53).
  { unfold fexp, SpecFloat.emin, prec, emax. lia. }
  rewrite Hf.
  destruct (Z.pos (digits2_pos p) - 53 - 0) as [|k|k] eqn:Ek; [| lia |].
  - exists p, 0. assert (Hd53 : digits2_pos p = 53%positive) by lia.
    rewrite binary_round_aux_exact by (auto; lia).
    repeat split; auto; lia.
  - assert (Hd' : digits2_pos (Pos.iter xO p k) = 53%positive)
      by (rewrite digits2_pos_iter; lia).
    exists (Pos.iter xO p k), (Z.pos (digits2_pos p) - 53).
    rewrite binary_round_aux_exact by (auto; lia).
    repeat split; auto; try lia.
    rewrite Zpos_iter_xO. f_equal. f_equal. lia.
Qed.

(** Multiplying a normal float by 1.0 gives it back. *)
Lemma SFmul_one m e :
  digits2_pos m = 53%positive ->
  -1074 <= e <= 971 ->
  SF64mul (S754_finite false 4503599627370496 (-52)) (S754_finite false m e)
  = S754_finite false m e.
Proof.
  intros Hd He. unfold SF64mul, SFmul. cbn [xorb].
  unfold binary_round_aux, shr_fexp.
  assert (Hm : (4503599627370496 * m)%positive = Pos.iter xO m 52)
    by reflexivity.
  rewrite Hm. cbn [Zdigits2]. rewrite digits2_pos_iter, Hd.
  assert (Hshift : fexp prec emax (Z.pos (53 + 52) + (-52 + e)) - (-52 + e) = 52).
  { unfold fexp, SpecFloat.emin, prec, emax. lia. }
  rewrite Hshift. cbn [shr shr_record_of_loc].
  cbn [Pos.iter]. cbn [iter_pos shr_1 orb].
  cbn [shr_m loc_of_shr_record round_nearest_even].
  replace (-52 + e + 52) with e by lia.
  assert (Hshift0 : fexp prec emax (Zdigits2 (Z.pos m) + e) - e = 0).
  { cbn [Zdigits2]. rewrite Hd. unfold fexp, SpecFloat.emin, prec, emax. lia. }
  rewrite Hshift0. cbn [shr shr_m].
  unfold emax, prec. destruct (Z.leb_spec e (1024 - 53)); [reflexivity | lia].
Qed.

(** 100 percent of [n] words is the index [n]. *)
Lemma percent_index_full n :
  0 < n < 2 ^ 53 ->
  percent_index (float_of_Z 100) n = Ok n.
Proof.
  intros Hn. destruct n as [|p|p]; try lia.
  destruct (binary_normalize_int p ltac:(lia)) as (m & e & HB & Hd & He & Hv).
  unfold percent_index.
  replace (PrimFloat.div (float_of_Z 100) (float_of_Z 100)) with 1%float
    by (vm_compute; reflexivity).
  unfold int_of_float, float_of_Z.
  rewrite mul_spec, HB, Prim2SF_SF2Prim by (apply valid_binary_53; auto; lia).
  change (Prim2SF 1) with (S754_finite false 4503599627370496 (-52)).
  rewrite SFmul_one by (auto; lia).
  cbn [trunc_SF]. f_equal.
  destruct (Z.leb_spec 0 e).
  - assert (e = 0) as -> by lia. rewrite Z.shiftl_0_r. cbn in Hv. lia.
  - rewrite Z.shiftr_div_pow2 by lia. rewrite Hv. apply Z.div_mul.
    apply Z.pow_nonzero; lia.
Qed.


(** Truncating and flooring a float differ only below zero, where the
    clamp of [seek] sends both to index 0. *)
Lemma trunc_floor_clamp x i n :
  0 < n ->
  floor_SF x = Ok i ->
  exists j, trunc_SF x = Ok j /\ clamp_index n j = clamp_index n i.
Proof.
  intros Hn H. destruct x as [s|s| |s m e]; cbn in H; try discriminate.
  - injection H as <-. exists 0. split; reflexivity.
  - injection H as <-. cbn [trunc_SF]. eexists. split; [reflexivity|].
    destruct (Z.leb_spec 0 e).
    + rewrite Z.shiftl_mul_pow2 by lia.
      destruct s; [|reflexivity].
      f_equal. change (Z.neg m) with (- Z.pos m). lia.
    + rewrite Z.shiftr_div_pow2 by lia.
      destruct s; [|reflexivity].
      assert (Hp : 0 < 2 ^ (- e)) by (apply Z.pow_pos_nonneg; lia).
      assert (H1 : Z.neg m / 2 ^ (- e) < 0)
        by (apply Z.div_lt_upper_bound; lia).
      assert (H2 : 0 <= Z.pos m / 2 ^ (- e))
        by (apply Z.div_pos; lia).
      unfold clamp_index. lia.
Qed.

End Binary64.

(** C4, as the code has it: [seek_percent] does nothing when there are no
    words.  Otherwise, when the binary64 product [percent / 100 * len(words)]
    is finite, it seeks to the floor of that float, so the cursor ends at
    that floor clamped to the valid indices; the floor is the one of the
    rounded product, not of the exact one.  At 100 percent, with fewer than
    2^53 words, the index computed is [len(words)], one past the end, and
    the cursor ends on the last word.  After loading "one two three four",
    [seek_percent(50)] leaves the cursor at 2. *)
Theorem seek_percent_spec :
  (forall p e, words (state e) = [] -> seek_percent p e = Ok (tt, e, []))
  /\ (forall p e i,
         words (state e) <> [] ->
         floor_of_float (percent_product p (len (words (state e)))) = Ok i ->
         seek_percent p e = seek i e
         /\ exists e' out,
              seek_percent p e = Ok (tt, e', out)
              /\ current_index (state e')
                 = Z.max 0 (Z.min i (len (words (state e)) - 1)))
  /\ (forall e,
         words (state e) <> [] ->
         len (words (state e)) < 2 ^ 53 ->
         percent_index (float_of_Z 100) (len (words (state e)))
         = Ok (len (words (state e)))
         /\ exists e' out,
              seek_percent (float_of_Z 100) e = Ok (tt, e', out)
              /\ current_index (state e') = len (words (state e)) - 1)
  /\ (exists e' out,
         bindM (load_text (of_string "one two three four"))
               (fun _ => seek_percent (float_of_Z 50)) init = Ok (tt, e', out)
         /\ current_index (state e') = 2).
Proof.
  assert (Hseek : forall p e j,
            words (state e) <> [] ->
            percent_index p (len (words (state e))) = Ok j ->
            seek_percent p e = seek j e).
  { intros p e j Hne Hj. unfold seek_percent. rewrite bindM_get_state.
    apply is_empty_false in Hne. rewrite Hne.
    unfold bindM, lift. rewrite Hj.
    destruct (seek j e) as [[[[] e2] out2]|]; reflexivity. }
  split; [|split; [|split]].
  - intros p e H. unfold seek_percent. rewrite bindM_get_state, H. reflexivity.
  - intros p e i Hne Hi.
    destruct (trunc_floor_clamp _ _ (len (words (state e))) (len_pos _ Hne) Hi)
      as (j & Hj & Hclamp).
    rewrite (Hseek p e j Hne Hj), !seek_eq by exact Hne. cbv zeta.
    rewrite Hclamp. split; [reflexivity|].
    eexists. eexists. split; reflexivity.
  - intros e Hne Hlen.
    pose proof (percent_index_full _ (conj (len_pos _ Hne) Hlen)) as Hfull.
    split; [exact Hfull|].
    rewrite (Hseek _ e _ Hne Hfull), seek_eq by exact Hne. cbv zeta.
    eexists. eexists. split; [reflexivity|].
    cbn. unfold clamp_index. pose proof (len_pos _ Hne). lia.
  - eexists. eexists. split; [vm_compute; reflexivity | reflexivity].
Qed.

Lemma seek_percent_spec_witness :
  let e := after (load_text (of_string "one two three four")) init in
  words (state e) <> []
  /\ floor_of_float (percent_product (float_of_Z 50) (len (words (state e))))
     = Ok 2
  /\ len (words (state e)) < 2 ^ 53
  /\ seek_percent (float_of_Z 50) e = seek 2 e
  /\ exists e' out, seek_percent (float_of_Z 100) e = Ok (tt, e', out)
                    /\ current_index (state e') = 3.
Proof.
  intros e.
  assert (Hne : words (state e) <> []) by (vm_compute; discriminate).
  assert (Hfl : floor_of_float
                  (percent_product (float_of_Z 50) (len (words (state e))))
                = Ok 2) by (vm_compute; reflexivity).
  assert (Hlen : len (words (state e)) < 2 ^ 53) by (vm_compute; reflexivity).
  split; [exact Hne|]. split; [exact Hfl|]. split; [exact Hlen|].
  split.
  - apply (proj1 (proj1 (proj2 seek_percent_spec) _ e 2 Hne Hfl)).
  - destruct (proj2 (proj1 (proj2 (proj2 seek_percent_spec)) e Hne Hlen))
      as (e' & out & H1 & H2).
    exists e', out. split; [exact H1|]. rewrite H2. vm_compute. reflexivity.
Defined.

(** C4 as the specification states it, with the exact floor, fails: on a
    hundred words the exact floor of [29/100 * 100] is 29, so the cursor
    stated is 29, while [seek_percent(29)] leaves the cursor at 28; hence
    the cursor is not the clamped exact floor for every percentage and
    every non-empty word list. *)
Lemma seek_percent_exact_floor_counterexample :
  let e := after (load_text hundred_words) init in
  let p := float_of_Z 29 in
  (words (state e) <> []
   /\ len (words (state e)) = 100
   /\ exact_percent_floor p (len (words (state e))) = Ok 29
   /\ Z.max 0 (Z.min 29 (len (words (state e)) - 1)) = 29
   /\ exists e' out,
        seek_percent p e = Ok (tt, e', out)
        /\ current_index (state e') = 28)
  /\ ~ (forall p e i,
          words (state e) <> [] ->
          exact_percent_floor p (len (words (state e))) = Ok i ->
          exists e' out,
            seek_percent p e = Ok (tt, e', out)
            /\ current_index (state e')
               = Z.max 0 (Z.min i (len (words (state e)) - 1))).
Proof.
  intros e p.
  assert (Hne : words (state e) <> []) by (vm_compute; discriminate).
  assert (Hex : exact_percent_floor p (len (words (state e))) = Ok 29)
    by (vm_compute; reflexivity).
  assert (Hrun : exists e' out,
             seek_percent p e = Ok (tt, e', out)
             /\ current_index (state e') = 28).
  { eexists. eexists. split; [vm_compute; reflexivity | reflexivity]. }
  split.
  - split; [exact Hne|]. split; [vm_compute; reflexivity|].
    split; [exact Hex|]. split; [vm_compute; reflexivity|]. exact Hrun.
  - intros H.
    destruct (H p e 29 Hne Hex) as (e1 & out1 & H1 & H2).
    destruct Hrun as (e2 & out2 & H3 & H4).
    rewrite H1 in H3. injection H3 as He _. subst e2.
    rewrite H4 in H2. vm_compute in H2. discriminate.
Qed.

(** The product in [seek_percent] is a binary64 product: 29 percent of a
    hundred words is the index 28, since [29 / 100 * 100] rounds to a
    float just below 29. *)
Remark percent_index_rounding : percent_index (float_of_Z 29) 100 = Ok 28.
Proof. vm_compute. reflexivity. Qed.

(* ================================================================== *)
(** * No exception between steps *)
(* ================================================================== *)

Section Returning.

Implicit Types (e : RSVPEngine).

Lemma seek_returns i e : is_ok (seek i e) = true.
Proof.
  destruct (words (state e)) eqn:E.
  - rewrite seek_empty by exact E. reflexivity.
  - rewrite seek_eq by (rewrite E; discriminate). reflexivity.
Qed.

Lemma play_returns e : Inv e -> is_ok (play e) = true.
Proof.
  intros HI. destruct (words (state e)) eqn:E.
  - rewrite play_empty by exact E. reflexivity.
  - assert (Hne : words (state e) <> []) by (rewrite E; discriminate).
    destruct (play_Inv_interval e HI Hne) as (ms & Hms).
    rewrite play_eq by exact Hne. cbv zeta. rewrite Hms. reflexivity.
Qed.

(** On an engine between two steps every public operation returns, but
    for [seek_percent] at a percentage whose product with the length is a
    NaN or an infinity, which [int] refuses. *)
Lemma call_returns o e :
  Inv e ->
  match o with
  | SeekPercent p =>
      words (state e) = []
      \/ is_ok (percent_index p (len (words (state e)))) = true
  | _ => True
  end ->
  is_ok (call o e) = true.
Proof.
  intros HI Ho.
  destruct o as [t| | | | |i|percent|n|n| | |v]; cbn [call].
  - destruct (process_text_spec t) as (ws & Hws & _ & _).
    rewrite (load_text_eq _ _ _ Hws). reflexivity.
  - apply play_returns, HI.
  - reflexivity.
  - rewrite toggle_play_pause_eq. destruct (is_playing (state e));
      [reflexivity | apply play_returns, HI].
  - rewrite stop_eq. reflexivity.
  - apply seek_returns.
  - unfold seek_percent. rewrite bindM_get_state.
    destruct (is_empty (words (state e))) eqn:E; [reflexivity|].
    destruct Ho as [Ho|Ho]; [apply is_empty_false in E; contradiction|].
    unfold bindM, lift.
    destruct (percent_index percent (len (words (state e)))) as [i|]; [|discriminate].
    pose proof (seek_returns i e) as Hs.
    destruct (seek i e) as [[[[] e2] out2]|]; [reflexivity | discriminate].
  - rewrite skip_forward_eq. apply seek_returns.
  - rewrite skip_backward_eq. apply seek_returns.
  - destruct (words (state e)) eqn:E.
    + unfold previous_sentence. rewrite bindM_get_state, E. reflexivity.
    + assert (Hne : words (state e) <> []) by (rewrite E; discriminate).
      pose proof (cursor_ok_nonempty _ Hne (proj1 HI)).
      destruct (previous_sentence_seek e Hne ltac:(lia)) as (j & ->).
      apply seek_returns.
  - destruct (words (state e)) eqn:E.
    + unfold next_sentence. rewrite bindM_get_state, E. reflexivity.
    + assert (Hne : words (state e) <> []) by (rewrite E; discriminate).
      pose proof (cursor_ok_nonempty _ Hne (proj1 HI)).
      destruct (next_sentence_seek e Hne ltac:(lia)) as (j & ->).
      apply seek_returns.
  - rewrite set_wpm_eq. cbv zeta.
    assert (HI1 : Inv (with_wpm (Z.max 50 (Z.min 2000 v)) e)).
    { destruct HI as (Hc & Hp & Ht & Hw & Hf).
      unfold Inv, cursor_ok. unfold_updates. repeat split; auto; lia. }
    destruct (interval_ms_Inv _ HI1) as (ms & ->).
    destruct (is_playing (state e)); reflexivity.
Qed.

(** A tick on a playing engine returns. *)
Lemma tick_returns e :
  Inv e -> is_playing (state e) = true -> is_ok (advance e) = true.
Proof.
  intros HI Hplay.
  assert (Hne : words (state e) <> []) by (apply HI, Hplay).
  pose proof (cursor_ok_nonempty _ Hne (proj1 HI)) as Hr.
  rewrite advance_eq by exact Hne. cbv zeta.
  destruct (Z.leb_spec (len (words (state e))) (current_index (state e) + 1));
    [reflexivity|].
  assert (HI1 : Inv (with_index (current_index (state e) + 1) e)).
  { apply Inv_with_index; [exact HI|].
    apply is_empty_false in Hne. rewrite Hne. lia. }
  destruct (interval_ms_Inv _ HI1) as (ms & ->). reflexivity.
Qed.

End Returning.

(* ================================================================== *)
(** * More of the engine: sentence navigation *)
(* ================================================================== *)

Section PreviousSentence.

Variable e : RSVPEngine.

(** The downward loop stops at the first terminator it meets above
    index 0. *)
Lemma previous_sentence_from_found idx w : forall start,
  (0 < idx <= Z.of_nat start)%Z ->
  Z.of_nat start < len (words (state e)) ->
  nth_error (words (state e)) (Z.to_nat idx) = Some w ->
  is_terminator w = true ->
  (forall j w', idx < j <= Z.of_nat start ->
                nth_error (words (state e)) (Z.to_nat j) = Some w' ->
                is_terminator w' = false) ->
  previous_sentence_from start e = seek (idx + 1) e.
Proof.
  induction start as [|start IH]; intros Hi Hlen Hw Ht Hnone; [lia|].
  rewrite previous_sentence_from_step.
  destruct (getitem_nth (words (state e)) (Z.of_nat (S start)) ltac:(lia))
    as (w0 & Hn0 & Hg0).
  rewrite Hg0.
  destruct (Z.eq_dec idx (Z.of_nat (S start))) as [Heq|Hneq].
  - rewrite Heq in Hw. rewrite Hn0 in Hw. injection Hw as ->.
    rewrite Ht, Heq. reflexivity.
  - rewrite (Hnone (Z.of_nat (S start)) w0 ltac:(lia) Hn0).
    apply IH; try lia; try assumption.
    intros j w' Hj. apply Hnone. lia.
Qed.

(** With no terminator above index 0, the loop runs down to 0. *)
Lemma previous_sentence_from_none : forall start,
  Z.of_nat start < len (words (state e)) ->
  (forall j w', 0 < j <= Z.of_nat start ->
                nth_error (words (state e)) (Z.to_nat j) = Some w' ->
                is_terminator w' = false) ->
  previous_sentence_from start e = seek 0 e.
Proof.
  induction start as [|start IH]; intros Hlen Hnone; [reflexivity|].
  rewrite previous_sentence_from_step.
  destruct (getitem_nth (words (state e)) (Z.of_nat (S start)) ltac:(lia))
    as (w0 & Hn0 & Hg0).
  rewrite Hg0, (Hnone (Z.of_nat (S start)) w0 ltac:(lia) Hn0).
  apply IH; [lia|]. intros j w' Hj. apply Hnone. lia.
Qed.

(** Where the downward loop can end: at 0, or just after an index it
    looked at. *)
Lemma previous_sentence_from_target : forall start,
  Z.of_nat start < len (words (state e)) ->
  exists j, previous_sentence_from start e = seek j e
            /\ (j = 0 \/ 2 <= j <= Z.of_nat start + 1).
Proof.
  induction start as [|start IH]; intros Hlen.
  - exists 0. split; [reflexivity | left; reflexivity].
  - rewrite previous_sentence_from_step.
    destruct (getitem_nth (words (state e)) (Z.of_nat (S start)) ltac:(lia))
      as (w0 & _ & ->).
    destruct (is_terminator w0).
    + exists (Z.of_nat (S start) + 1). split; [reflexivity | right; lia].
    + destruct (IH ltac:(lia)) as (j & Hj & Hr).
      exists j. split; [exact Hj | lia].
Qed.

(** Where the upward loop can end: above the index it starts from, up to
    the last index. *)
Lemma next_sentence_from_target : forall left idx,
  0 <= idx ->
  idx + Z.of_nat left = len (words (state e)) - 1 ->
  exists j, next_sentence_from left idx e = seek j e
            /\ idx <= j <= len (words (state e)) - 1
            /\ (idx < len (words (state e)) - 1 -> idx < j).
Proof.
  induction left as [|left IH]; intros idx H0 H1.
  - rewrite next_sentence_from_end. eexists. split; [reflexivity | lia].
  - rewrite next_sentence_from_step.
    destruct (getitem_nth (words (state e)) idx ltac:(lia)) as (w & _ & ->).
    destruct (is_terminator w).
    + exists (idx + 1). split; [reflexivity | lia].
    + destruct (IH (idx + 1) ltac:(lia) ltac:(lia)) as (j & Hj & Hr).
      exists j. split; [exact Hj | lia].
Qed.

Lemma previous_sentence_unfold :
  words (state e) <> [] ->
  previous_sentence e
  = previous_sentence_from
      (Z.to_nat (Z.max 0 (current_index (state e) - 1))) e.
Proof.
  intros Hne. unfold previous_sentence. rewrite bindM_get_state.
  apply is_empty_false in Hne. rewrite Hne. reflexivity.
Qed.

End PreviousSentence.

(** X1: on a non-empty word list [previous_sentence] looks at the indices
    from one before the cursor downward, index 0 excluded; it seeks to the
    index after the first one whose word ends a sentence, and to 0 when
    there is none.  The word at index 0 is never looked at. *)
Theorem previous_sentence_spec e :
  words (state e) <> [] ->
  0 <= current_index (state e) <= len (words (state e)) ->
  (forall idx w,
      0 < idx <= current_index (state e) - 1 ->
      nth_error (words (state e)) (Z.to_nat idx) = Some w ->
      is_terminator w = true ->
      (forall j w', idx < j <= current_index (state e) - 1 ->
                    nth_error (words (state e)) (Z.to_nat j) = Some w' ->
                    is_terminator w' = false) ->
      previous_sentence e = seek (idx + 1) e)
  /\ ((forall j w', 0 < j <= current_index (state e) - 1 ->
                    nth_error (words (state e)) (Z.to_nat j) = Some w' ->
                    is_terminator w' = false) ->
      previous_sentence e = seek 0 e).
Proof.
  intros Hne Hc. rewrite previous_sentence_unfold by exact Hne.
  pose proof (len_pos _ Hne) as Hpos. split.
  - intros idx w Hidx Hw Ht Hnone.
    apply (previous_sentence_from_found e idx w); try assumption; try lia.
    intros j w' Hj. apply Hnone. lia.
  - intros Hnone. apply previous_sentence_from_none; [lia|].
    intros j w' Hj. apply Hnone. lia.
Qed.

Lemma previous_sentence_spec_witness :
  let e := after (seek 3)
             (after (load_text (of_string "First sentence. Second sentence."))
                    init) in
  words (state e) <> []
  /\ current_index (state e) = 3
  /\ previous_sentence e = seek 2 e.
Proof.
  intros e.
  assert (Hne : words (state e) <> []) by (vm_compute; discriminate).
  assert (Hc : 0 <= current_index (state e) <= len (words (state e)))
    by (vm_compute; split; discriminate).
  split; [exact Hne|]. split; [vm_compute; reflexivity|].
  apply (proj1 (previous_sentence_spec e Hne Hc) 1
           (mkWord (of_string "sentence.") 2 2.5%float)).
  - vm_compute. split; [reflexivity | discriminate].
  - vm_compute. reflexivity.
  - reflexivity.
  - intros j w' Hj Hw'.
    assert (j = 2) as -> by (change (current_index (state e)) with 3 in Hj; lia).
    vm_compute in Hw'. injection Hw' as <-. reflexivity.
Defined.

(** X2: on a reachable engine with words [next_sentence] returns, changes
    only the cursor, never moves it backward, and moves it forward unless
    it already stands on the last word. *)
Theorem next_sentence_forward e :
  reachable e ->
  words (state e) <> [] ->
  exists e' out,
    next_sentence e = Ok (tt, e', out)
    /\ current_index (state e) <= current_index (state e')
       <= len (words (state e)) - 1
    /\ (current_index (state e) < len (words (state e)) - 1 ->
        current_index (state e) < current_index (state e'))
    /\ e' = with_index (current_index (state e')) e.
Proof.
  intros Hr Hne. pose proof (reachable_Inv e Hr) as HI.
  pose proof (cursor_ok_nonempty _ Hne (proj1 HI)) as Hc.
  rewrite next_sentence_unfold by exact Hne.
  destruct (next_sentence_from_target e
              (Z.to_nat (len (words (state e)) - 1 - current_index (state e)))
              (current_index (state e)) ltac:(lia) ltac:(lia))
    as (j & -> & Hj1 & Hj2).
  rewrite seek_eq by exact Hne. cbv zeta.
  eexists. eexists. split; [reflexivity|].
  unfold clamp_index. unfold_updates.
  repeat split; lia.
Qed.

Lemma next_sentence_forward_witness :
  let e := after (call (Load (of_string "One. Two three. Four"))) init in
  reachable e
  /\ exists e' out, next_sentence e = Ok (tt, e', out)
                    /\ current_index (state e) < current_index (state e').
Proof.
  intros e.
  assert (Hr : reachable e)
    by (apply reachable_call; [apply reachable_init | vm_compute; reflexivity]).
  assert (Hne : words (state e) <> []) by (vm_compute; discriminate).
  split; [exact Hr|].
  destruct (next_sentence_forward e Hr Hne) as (e' & out & H1 & _ & H2 & _).
  exists e', out. split; [exact H1|]. apply H2. vm_compute. reflexivity.
Defined.

(** X3: on a reachable engine with words [previous_sentence] returns,
    changes only the cursor, and never moves it forward. *)
Theorem previous_sentence_backward e :
  reachable e ->
  words (state e) <> [] ->
  exists e' out,
    previous_sentence e = Ok (tt, e', out)
    /\ 0 <= current_index (state e') <= current_index (state e)
    /\ e' = with_index (current_index (state e')) e.
Proof.
  intros Hr Hne. pose proof (reachable_Inv e Hr) as HI.
  pose proof (cursor_ok_nonempty _ Hne (proj1 HI)) as Hc.
  rewrite previous_sentence_unfold by exact Hne.
  destruct (previous_sentence_from_target e
              (Z.to_nat (Z.max 0 (current_index (state e) - 1))) ltac:(lia))
    as (j & -> & Hj).
  rewrite seek_eq by exact Hne. cbv zeta.
  eexists. eexists. split; [reflexivity|].
  unfold clamp_index. unfold_updates.
  repeat split; lia.
Qed.

Lemma previous_sentence_backward_witness :
  let e := after (call (Seek 3))
             (after (call (Load (of_string "One. Two three. Four"))) init) in
  reachable e
  /\ exists e' out, previous_sentence e = Ok (tt, e', out)
                    /\ current_index (state e') <= 3.
Proof.
  intros e.
  assert (Hr : reachable e).
  { apply reachable_call; [apply reachable_call; [apply reachable_init|]|];
      vm_compute; reflexivity. }
  assert (Hne : words (state e) <> []) by (vm_compute; discriminate).
  split; [exact Hr|].
  destruct (previous_sentence_backward e Hr Hne) as (e' & out & H1 & H2 & _).
  exists e', out. split; [exact H1|]. apply H2.
Defined.

(** X4: when the cursor stands, at index 2 or more, just after a word that
    ends a sentence, [previous_sentence] seeks to the cursor itself: the
    engine stays where it is. *)
Theorem previous_sentence_at_sentence_start e w :
  words (state e) <> [] ->
  2 <= current_index (state e) < len (words (state e)) ->
  nth_error (words (state e)) (Z.to_nat (current_index (state e) - 1)) = Some w ->
  is_terminator w = true ->
  previous_sentence e = seek (current_index (state e)) e
  /\ exists out, previous_sentence e = Ok (tt, e, out).
Proof.
  intros Hne Hc Hw Ht.
  assert (Hp : previous_sentence e = seek (current_index (state e)) e).
  { rewrite previous_sentence_unfold by exact Hne.
    pose proof (previous_sentence_from_found e
                  (current_index (state e) - 1) w
                  (Z.to_nat (Z.max 0 (current_index (state e) - 1)))
                  ltac:(lia) ltac:(lia) Hw Ht) as H.
    replace (current_index (state e) - 1 + 1)
      with (current_index (state e)) in H by lia.
    apply H. intros j w' Hj. lia. }
  split; [exact Hp|].
  rewrite Hp, seek_eq by exact Hne. cbv zeta.
  eexists. f_equal. f_equal. f_equal.
  unfold clamp_index. rewrite Z.min_l, Z.max_r by lia.
  destruct e as [[ws i r p] ta ti]. reflexivity.
Qed.

Lemma previous_sentence_at_sentence_start_witness :
  let e := after (seek 2)
             (after (load_text (of_string "First sentence. Second sentence."))
                    init) in
  current_index (state e) = 2
  /\ exists out, previous_sentence e = Ok (tt, e, out).
Proof.
  intros e.
  assert (Hne : words (state e) <> []) by (vm_compute; discriminate).
  assert (Hc : 2 <= current_index (state e) < len (words (state e)))
    by (vm_compute; split; [discriminate | reflexivity]).
  split; [vm_compute; reflexivity|].
  apply (previous_sentence_at_sentence_start e
           (mkWord (of_string "sentence.") 2 2.5%float) Hne Hc).
  - vm_compute. reflexivity.
  - reflexivity.
Defined.

(* ================================================================== *)
(** * More of the engine: loading, stopping, resuming *)
(* ================================================================== *)

Lemma tokenize_total_tokens t :
  exists ws, process_text t = Ok ws /\ Tokens t (map text ws).
Proof.
  destruct (process_text_spec t) as (ws & H1 & H2 & _).
  exists ws. split; [exact H1|]. rewrite H2. apply split_Tokens.
Qed.

Section CurrentWord.

Lemma current_word_in_range s :
  0 <= current_index s < len (words s) ->
  exists w, current_word s = Some w
            /\ nth_error (words s) (Z.to_nat (current_index s)) = Some w.
Proof.
  intros H. unfold current_word.
  destruct (Z.leb_spec 0 (current_index s)); [|lia].
  destruct (Z.ltb_spec (current_index s) (len (words s))); [|lia].
  cbn [andb].
  destruct (getitem_nth (words s) (current_index s) H) as (w & Hw & _).
  exists w. auto.
Qed.

Lemma current_word_out_of_range s :
  current_index s < 0 \/ len (words s) <= current_index s ->
  current_word s = None.
Proof.
  intros H. unfold current_word.
  destruct (Z.leb_spec 0 (current_index s));
    destruct (Z.ltb_spec (current_index s) (len (words s)));
    cbn [andb]; try reflexivity; lia.
Qed.

Lemma current_word_first ws r p :
  current_word (mkState ws 0 r p) = hd_error ws.
Proof.
  destruct ws as [|w ws]; [reflexivity|].
  unfold current_word. cbn [words current_index].
  rewrite len_cons. pose proof (len_nonneg ws).
  destruct (Z.ltb_spec 0 (1 + len ws)); [reflexivity | lia].
Qed.

End CurrentWord.

(** X5: in every reachable state with words the current word is defined
    and is the word at the cursor; with no words there is none. *)
Theorem current_word_defined e :
  reachable e ->
  (words (state e) <> [] ->
   exists w, current_word (state e) = Some w
             /\ nth_error (words (state e))
                  (Z.to_nat (current_index (state e))) = Some w)
  /\ (words (state e) = [] -> current_word (state e) = None).
Proof.
  intros Hr. pose proof (reachable_Inv e Hr) as HI. split.
  - intros Hne. apply current_word_in_range.
    apply cursor_ok_nonempty; [exact Hne | apply HI].
  - intros Hnil. apply current_word_out_of_range. right.
    rewrite Hnil. destruct HI as (Hc & _). unfold cursor_ok in Hc.
    rewrite Hnil in Hc. cbn in Hc. rewrite Hc. cbn. lia.
Qed.

Lemma current_word_defined_witness :
  let e := after (call (SkipForward 10))
             (after (call (Load (of_string "one two three"))) init) in
  reachable e
  /\ exists w, current_word (state e) = Some w /\ text w = of_string "three".
Proof.
  intros e.
  assert (Hr : reachable e).
  { apply reachable_call; [apply reachable_call; [apply reachable_init|]|];
      vm_compute; reflexivity. }
  assert (Hne : words (state e) <> []) by (vm_compute; discriminate).
  split; [exact Hr|].
  destruct (proj1 (current_word_defined e Hr) Hne) as (w & H1 & H2).
  exists w. split; [exact H1|].
  vm_compute in H2. injection H2 as <-. reflexivity.
Defined.

(** X6: [load_text] returns on every engine and every text.  It leaves the
    tokens of the text as the words, the cursor at 0, the engine paused
    with its timer stopped, and the rate and the timer interval as they
    were; the last three signals are [state_changed], a progress of 0 and
    [word_changed] with the first word, or with none when the text has no
    token. *)
Theorem load_text_spec t e :
  exists ws out0,
    process_text t = Ok ws
    /\ Tokens t (map text ws)
    /\ load_text t e
       = Ok (tt,
             mkEngine (mkState ws 0 (wpm (state e)) false) false
                      (timer_interval e),
             out0 ++ [state_changed; progress_changed 0.0%float;
                      word_changed (hd_error ws)])
    /\ ~ In finished out0.
Proof.
  destruct (tokenize_total_tokens t) as (ws & Hws & Htok).
  exists ws.
  exists (state_changed :: progress_changed 0.0%float ::
            (if is_empty (words (state e)) then []
             else [word_changed (hd_error (words (state e)))])).
  split; [exact Hws|]. split; [exact Htok|].
  rewrite (load_text_eq _ _ _ Hws). cbv zeta. unfold_updates.
  rewrite !current_word_first.
  replace (if is_empty ws then None else hd_error ws) with (hd_error ws)
    by (destruct ws; reflexivity).
  split; [reflexivity|].
  destruct (is_empty (words (state e))); cbn; intros H;
    repeat (destruct H as [H|H]; [discriminate|]); exact H.
Qed.

(** [stop] returns on every engine; it sets the cursor to 0, pauses the
    engine and stops its timer, and keeps the words, the rate and the
    timer interval.  Stopping a stopped engine changes nothing more. *)
Lemma stop_spec e :
  exists out,
    stop e = Ok (tt,
                 mkEngine (mkState (words (state e)) 0 (wpm (state e)) false)
                          false (timer_interval e),
                 out)
    /\ (exists out',
          bindM stop (fun _ => stop) e
          = Ok (tt,
                mkEngine (mkState (words (state e)) 0 (wpm (state e)) false)
                         false (timer_interval e),
                out'))
    /\ ~ In finished out
    /\ (words (state e) = [] ->
        out = [state_changed; progress_changed 0.0%float])
    /\ (words (state e) <> [] ->
        out = [state_changed; progress_changed 0.0%float;
               word_changed (hd_error (words (state e)))]).
Proof.
  rewrite stop_eq. cbv zeta. unfold_updates. rewrite current_word_first.
  eexists. split; [reflexivity|]. split; [|split; [|split]].
  - unfold bindM. rewrite stop_eq. cbv zeta. unfold_updates.
    rewrite stop_eq. cbv zeta. unfold_updates. eexists. reflexivity.
  - destruct (is_empty (words (state e))); cbn; intros H;
      repeat (destruct H as [H|H]; [discriminate|]); exact H.
  - intros ->. reflexivity.
  - intros Hne. apply is_empty_false in Hne. rewrite Hne. reflexivity.
Qed.



(** X8: skipping forward by [n] words and back by [n] words returns the
    engine to where it was, as long as the forward skip stays within the
    words. *)
Theorem skip_forward_backward e n :
  words (state e) <> [] ->
  0 <= current_index (state e) ->
  0 <= n ->
  current_index (state e) + n <= len (words (state e)) - 1 ->
  exists e1 out1 out2,
    skip_forward n e = Ok (tt, e1, out1)
    /\ current_index (state e1) = current_index (state e) + n
    /\ skip_backward n e1 = Ok (tt, e, out2).
Proof.
  intros Hne H0 Hn Hfit.
  rewrite skip_forward_eq, seek_eq by exact Hne. cbv zeta.
  eexists. eexists. eexists. split; [reflexivity|].
  assert (Hcl : clamp_index (len (words (state e))) (current_index (state e) + n)
                = current_index (state e) + n)
    by (unfold clamp_index; lia).
  rewrite Hcl. split; [reflexivity|].
  rewrite skip_backward_eq, seek_eq by exact Hne. cbv zeta.
  unfold_updates.
  replace (clamp_index (len (words (state e)))
             (current_index (state e) + n - n))
    with (current_index (state e)) by (unfold clamp_index; lia).
  destruct e as [[ws i r p] ta ti]. reflexivity.
Qed.

Lemma skip_forward_backward_witness :
  let e := after (seek 1)
             (after (load_text (of_string "a b c d e f")) init) in
  exists e1 out1 out2,
    skip_forward 3 e = Ok (tt, e1, out1)
    /\ current_index (state e1) = 4
    /\ skip_backward 3 e1 = Ok (tt, e, out2).
Proof.
  intros e.
  destruct (skip_forward_backward e 3) as (e1 & out1 & out2 & H1 & H2 & H3).
  - vm_compute. discriminate.
  - vm_compute. discriminate.
  - lia.
  - vm_compute. discriminate.
  - exists e1, out1, out2. split; [exact H1|]. split; [|exact H3].
    rewrite H2. vm_compute. reflexivity.
Defined.

(* ================================================================== *)
(** * More of the engine: playing to the end *)
(* ================================================================== *)

Section Playthrough.

Implicit Types (e : RSVPEngine).

Lemma tick_playing e :
  timer_active e = true -> tick e = advance e.
Proof. intros H. unfold tick. rewrite H. reflexivity. Qed.

Lemma ticks_stopped k : forall e,
  timer_active e = false -> ticks k e = Ok (tt, e, []).
Proof.
  induction k as [|k IH]; intros e H; [reflexivity|].
  cbn [ticks]. unfold bindM, tick. rewrite H, IH by exact H. reflexivity.
Qed.

Lemma bindM_assoc {A B C} (m : M A) (k : A -> M B) (h : B -> M C) e :
  bindM (bindM m k) h e = bindM m (fun a => bindM (k a) h) e.
Proof.
  unfold bindM.
  destruct (m e) as [[[a e1] out1]|]; [|reflexivity].
  destruct (k a e1) as [[[b e2] out2]|]; [|reflexivity].
  destruct (h b e2) as [[[c e3] out3]|]; [|reflexivity].
  rewrite app_assoc. reflexivity.
Qed.

Lemma bindM_ext {A B} (m : M A) (k1 k2 : A -> M B) e :
  (forall a e', k1 a e' = k2 a e') -> bindM m k1 e = bindM m k2 e.
Proof.
  intros H. unfold bindM.
  destruct (m e) as [[[a e1] out1]|]; [|reflexivity].
  rewrite H. reflexivity.
Qed.

Lemma ticks_add a b e :
  ticks (a + b) e = bindM (ticks a) (fun _ => ticks b) e.
Proof.
  revert e. induction a as [|a IH]; intros e.
  - cbn [ticks Nat.add]. unfold bindM, ret.
    destruct (ticks b e) as [[[[] e2] out]|]; reflexivity.
  - cbn [ticks Nat.add]. rewrite bindM_assoc.
    apply bindM_ext. intros _ e'. apply IH.
Qed.

Lemma count_signals_app f out1 out2 :
  count_signals f (out1 ++ out2)
  = (count_signals f out1 + count_signals f out2)%nat.
Proof. unfold count_signals. rewrite filter_app, length_app. reflexivity. Qed.

(** A tick before the last word moves to the next word and keeps the
    engine playing. *)
Lemma advance_middle e :
  Inv e ->
  is_playing (state e) = true ->
  current_index (state e) + 1 < len (words (state e)) ->
  exists w ms,
    nth_error (words (state e)) (Z.to_nat (current_index (state e) + 1))
    = Some w
    /\ interval_ms (wpm (state e)) (Some (pause_after w)) = Ok ms
    /\ advance e
       = Ok (tt,
             with_timer_interval ms
               (with_index (current_index (state e) + 1) e),
             [word_changed (Some w);
              progress_changed
                (progress_of
                   (state (with_index (current_index (state e) + 1) e)))]).
Proof.
  intros HI Hplay Hc.
  assert (Hne : words (state e) <> []) by (apply HI, Hplay).
  pose proof (cursor_ok_nonempty _ Hne (proj1 HI)) as Hr.
  assert (HI1 : Inv (with_index (current_index (state e) + 1) e)).
  { apply Inv_with_index; [exact HI|].
    apply is_empty_false in Hne. rewrite Hne. lia. }
  destruct (current_word_in_range
              (state (with_index (current_index (state e) + 1) e)))
    as (w & Hw & Hn); [cbn; lia|].
  destruct (interval_ms_Inv _ HI1) as (ms & Hms).
  exists w, ms. split; [exact Hn|].
  rewrite Hw in Hms. cbn [option_map] in Hms.
  split; [exact Hms|].
  rewrite advance_eq by exact Hne. cbv zeta.
  destruct (Z.leb_spec (len (words (state e))) (current_index (state e) + 1));
    [lia|].
  rewrite Hw. cbn [option_map].
  rewrite Hms. reflexivity.
Qed.

(** From a playing engine, as many ticks as there are words from the
    cursor on play the text to its end. *)
Lemma ticks_to_end : forall k e,
  Inv e ->
  is_playing (state e) = true ->
  Z.of_nat (S k) = len (words (state e)) - current_index (state e) ->
  exists ms out,
    ticks (S k) e
    = Ok (tt,
          mkEngine (mkState (words (state e)) (len (words (state e)) - 1)
                            (wpm (state e)) false)
                   false ms,
          out)
    /\ count_signals is_finished out = 1%nat
    /\ count_signals is_word_changed out = k.
Proof.
  induction k as [|k IH]; intros e HI Hplay Hk.
  - assert (Hne : words (state e) <> []) by (apply HI, Hplay).
    cbn [ticks]. unfold bindM.
    rewrite tick_playing by (destruct HI as (_ & _ & -> & _); exact Hplay).
    rewrite advance_eq by exact Hne. cbv zeta.
    destruct (Z.leb_spec (len (words (state e))) (current_index (state e) + 1));
      [|lia].
    unfold ret. eexists. eexists. split; [reflexivity|].
    split; reflexivity.
  - destruct (advance_middle e HI Hplay ltac:(lia)) as (w & ms & _ & _ & Hadv).
    assert (HI1 : Inv (with_timer_interval ms
                         (with_index (current_index (state e) + 1) e)))
      by (eapply advance_Inv; eassumption).
    destruct (IH _ HI1 Hplay) as (ms' & out' & Ht & Hf & Hw).
    { cbn [state with_timer_interval with_index words current_index]. lia. }
    change (ticks (S (S k)) e) with (bindM tick (fun _ => ticks (S k)) e).
    unfold bindM.
    rewrite tick_playing by (destruct HI as (_ & _ & -> & _); exact Hplay).
    rewrite Hadv, Ht.
    eexists. eexists. split; [reflexivity|].
    rewrite !count_signals_app, Hf, Hw. split; reflexivity.
Qed.

End Playthrough.

(** X9: a tick on a reachable, playing engine whose cursor is before the
    last word moves the cursor to the next word, keeps the engine playing,
    sets the timer to the interval of that word, and emits [word_changed]
    with that word and then [progress_changed]. *)
Theorem advance_to_next_word e :
  reachable e ->
  is_playing (state e) = true ->
  current_index (state e) + 1 < len (words (state e)) ->
  exists w ms e' p,
    nth_error (words (state e)) (Z.to_nat (current_index (state e) + 1))
    = Some w
    /\ interval_ms (wpm (state e)) (Some (pause_after w)) = Ok ms
    /\ advance e = Ok (tt, e', [word_changed (Some w); progress_changed p])
    /\ current_index (state e') = current_index (state e) + 1
    /\ timer_interval e' = ms
    /\ is_playing (state e') = true
    /\ timer_active e' = true
    /\ words (state e') = words (state e)
    /\ wpm (state e') = wpm (state e).
Proof.
  intros Hr Hplay Hc. pose proof (reachable_Inv e Hr) as HI.
  destruct (advance_middle e HI Hplay Hc) as (w & ms & H1 & H2 & H3).
  exists w, ms. eexists. eexists.
  split; [exact H1|]. split; [exact H2|]. split; [exact H3|].
  unfold_updates. repeat split; try assumption.
  destruct HI as (_ & _ & -> & _). exact Hplay.
Qed.

Lemma advance_to_next_word_witness :
  let e := after (call Play)
             (after (call (Load (of_string "Wait, now go"))) init) in
  reachable e
  /\ timer_interval e = 300
  /\ exists e' out, advance e = Ok (tt, e', out)
                    /\ current_index (state e') = 1
                    /\ timer_interval e' = 200.
Proof.
  intros e.
  assert (Hr : reachable e).
  { apply reachable_call; [apply reachable_call; [apply reachable_init|]|];
      vm_compute; reflexivity. }
  split; [exact Hr|]. split; [vm_compute; reflexivity|].
  destruct (advance_to_next_word e Hr)
    as (w & ms & e' & p & H1 & H2 & H3 & H4 & H5 & _).
  - vm_compute. reflexivity.
  - vm_compute. reflexivity.
  - exists e'. eexists. split; [exact H3|]. split.
    + rewrite H4. vm_compute. reflexivity.
    + rewrite H5. vm_compute in H1. injection H1 as <-.
      vm_compute in H2. injection H2 as <-. reflexivity.
Defined.

(** X10: left alone, a reachable playing engine plays to the end.  After
    as many timer periods as there are words from the cursor on, and after
    any larger number, it is paused on the last word with its timer
    stopped; over all those periods it has emitted [finished] exactly once
    and [word_changed] once for each word after the one it started on. *)
Theorem playback_reaches_end e k :
  reachable e ->
  is_playing (state e) = true ->
  len (words (state e)) - current_index (state e) <= Z.of_nat k ->
  exists e' out,
    ticks k e = Ok (tt, e', out)
    /\ is_playing (state e') = false
    /\ timer_active e' = false
    /\ current_index (state e') = len (words (state e)) - 1
    /\ words (state e') = words (state e)
    /\ wpm (state e') = wpm (state e)
    /\ count_signals is_finished out = 1%nat
    /\ Z.of_nat (count_signals is_word_changed out)
       = len (words (state e)) - 1 - current_index (state e).
Proof.
  intros Hr Hplay Hk. pose proof (reachable_Inv e Hr) as HI.
  assert (Hne : words (state e) <> []) by (apply HI, Hplay).
  pose proof (cursor_ok_nonempty _ Hne (proj1 HI)) as Hc.
  set (n := Z.to_nat (len (words (state e)) - current_index (state e) - 1)).
  destruct (ticks_to_end n e HI Hplay ltac:(lia)) as (ms & out & Ht & Hf & Hw).
  replace k with (S n + (k - S n))%nat by lia.
  rewrite ticks_add. unfold bindM. rewrite Ht.
  rewrite ticks_stopped by reflexivity.
  eexists. eexists. split; [reflexivity|].
  rewrite app_nil_r, Hf, Hw. cbn.
  repeat split. lia.
Qed.

Lemma playback_reaches_end_witness :
  let e := after (call Play)
             (after (call (Load (of_string "one two three"))) init) in
  reachable e
  /\ exists e' out, ticks 7 e = Ok (tt, e', out)
                    /\ current_index (state e') = 2
                    /\ is_playing (state e') = false
                    /\ count_signals is_finished out = 1%nat.
Proof.
  intros e.
  assert (Hr : reachable e).
  { apply reachable_call; [apply reachable_call; [apply reachable_init|]|];
      vm_compute; reflexivity. }
  split; [exact Hr|].
  destruct (playback_reaches_end e 7 Hr)
    as (e' & out & H1 & H2 & _ & H3 & _ & _ & H4 & _).
  - vm_compute. reflexivity.
  - vm_compute. discriminate.
  - exists e', out. split; [exact H1|]. split; [|auto].
    rewrite H3. vm_compute. reflexivity.
Defined.

(* ================================================================== *)
(** * More of the engine: what the signals carry, what remains *)
(* ================================================================== *)

Lemma cursor_invariant_inv e :
  reachable e ->
  (words (state e) <> [] ->
   0 <= current_index (state e) < len (words (state e)))
  /\ (words (state e) = [] -> current_index (state e) = 0).
Proof.
  intros Hr. destruct (reachable_Inv e Hr) as (Hc & _).
  unfold cursor_ok in Hc. split; intros H.
  - apply is_empty_false in H. rewrite H in Hc. exact Hc.
  - apply is_empty_true in H. rewrite H in Hc. exact Hc.
Qed.

Section SignalsCarried.

Implicit Types (e : RSVPEngine).

Lemma seek_word_defined i e e' out :
  seek i e = Ok (tt, e', out) -> ~ In (word_changed None) out.
Proof.
  intros H Hin. destruct (words (state e)) as [|w ws] eqn:E.
  - rewrite seek_empty in H by exact E. injection H as _ <-. destruct Hin.
  - assert (Hne : words (state e) <> []) by (rewrite E; discriminate).
    rewrite seek_eq in H by exact Hne. cbv zeta in H. injection H as _ <-.
    destruct (current_word_in_range
                (state (with_index (clamp_index (len (words (state e))) i) e)))
      as (w' & Hw & _).
    { cbn. apply clamp_index_range, len_pos, Hne. }
    unfold_updates. rewrite Hw in Hin. signal_cases Hin.
Qed.

Lemma stop_word_defined e e' out :
  stop e = Ok (tt, e', out) -> ~ In (word_changed None) out.
Proof.
  intros H Hin. rewrite stop_eq in H. cbv zeta in H. injection H as _ <-.
  unfold_updates. rewrite current_word_first in Hin.
  destruct (words (state e)) as [|w ws]; cbn [is_empty hd_error] in Hin;
    signal_cases Hin.
Qed.

Lemma play_word_defined e e' out :
  play e = Ok (tt, e', out) -> ~ In (word_changed None) out.
Proof.
  intros H Hin. destruct (words (state e)) as [|w ws] eqn:E.
  - rewrite play_empty in H by exact E. injection H as _ <-. destruct Hin.
  - rewrite play_eq in H by (rewrite E; discriminate). cbv zeta in H.
    destruct (interval_ms _ _) in H; [|discriminate].
    injection H as _ <-. signal_cases Hin.
Qed.

End SignalsCarried.

(** X11: in a step from a reachable state, [word_changed] is emitted with
    no word only by [load_text] on a text without any token; every other
    [word_changed] carries a word. *)
Theorem word_changed_none_only_on_blank_load e a out e' :
  reachable e ->
  step e a out e' ->
  In (word_changed None) out ->
  exists t, a = Call (Load t) /\ forallb isspace t = true.
Proof.
  intros Hr Hstep Hin. pose proof (reachable_Inv e Hr) as HI.
  destruct Hstep as [o e e' out H | e e' out Hplay H].
  - destruct o as [t| | | | |i|percent|n|n| | |v]; cbn [call] in H.
    + exists t. split; [reflexivity|].
      destruct (tokenize_total_tokens t) as (ws & Hws & Htok).
      rewrite (load_text_eq _ _ _ Hws) in H. cbv zeta in H.
      injection H as _ <-. unfold_updates.
      rewrite !current_word_first in Hin.
      destruct ws as [|w ws].
      * inversion Htok. assumption.
      * destruct (words (state e)) as [|w0 ws0];
          cbn [is_empty hd_error] in Hin; signal_cases Hin.
    + exfalso. eapply play_word_defined; eassumption.
    + rewrite pause_eq in H. injection H as _ <-. signal_cases Hin.
    + rewrite toggle_play_pause_eq in H. destruct (is_playing (state e)).
      * rewrite pause_eq in H. injection H as _ <-. signal_cases Hin.
      * exfalso. eapply play_word_defined; eassumption.
    + exfalso. eapply stop_word_defined; eassumption.
    + exfalso. eapply seek_word_defined; eassumption.
    + exfalso. unfold seek_percent in H. rewrite bindM_get_state in H.
      destruct (is_empty (words (state e))).
      * injection H as _ <-. destruct Hin.
      * unfold bindM, lift in H.
        destruct (percent_index percent (len (words (state e)))); [|discriminate].
        destruct (seek a e) as [[[[] e2] out2]|] eqn:Hs; [|discriminate].
        injection H as _ <-. cbn [app] in Hin.
        eapply seek_word_defined; eassumption.
    + exfalso. rewrite skip_forward_eq in H.
      eapply seek_word_defined; eassumption.
    + exfalso. rewrite skip_backward_eq in H.
      eapply seek_word_defined; eassumption.
    + exfalso. destruct (words (state e)) eqn:E.
      * unfold previous_sentence in H. rewrite bindM_get_state, E in H.
        injection H as _ <-. destruct Hin.
      * assert (Hne : words (state e) <> []) by (rewrite E; discriminate).
        pose proof (cursor_ok_nonempty _ Hne (proj1 HI)).
        destruct (previous_sentence_seek e Hne ltac:(lia)) as (j & Hj).
        rewrite Hj in H. eapply seek_word_defined; eassumption.
    + exfalso. destruct (words (state e)) eqn:E.
      * unfold next_sentence in H. rewrite bindM_get_state, E in H.
        injection H as _ <-. destruct Hin.
      * assert (Hne : words (state e) <> []) by (rewrite E; discriminate).
        pose proof (cursor_ok_nonempty _ Hne (proj1 HI)).
        destruct (next_sentence_seek e Hne ltac:(lia)) as (j & Hj).
        rewrite Hj in H. eapply seek_word_defined; eassumption.
    + exfalso. rewrite set_wpm_eq in H. cbv zeta in H.
      destruct (is_playing (state e)).
      * destruct (interval_ms _ _) in H; [|discriminate].
        injection H as _ <-. destruct Hin.
      * injection H as _ <-. destruct Hin.
  - exfalso.
    assert (Hne : words (state e) <> []) by (apply HI, Hplay).
    pose proof (cursor_ok_nonempty _ Hne (proj1 HI)) as Hc.
    rewrite advance_eq in H by exact Hne. cbv zeta in H.
    destruct (Z.leb_spec (len (words (state e))) (current_index (state e) + 1)).
    + injection H as _ <-. signal_cases Hin.
    + destruct (interval_ms _ _) in H; [|discriminate].
      injection H as _ <-.
      destruct (current_word_in_range
                  (state (with_index (current_index (state e) + 1) e)))
        as (w' & Hw & _); [cbn; lia|].
      unfold_updates. rewrite Hw in Hin. signal_cases Hin.
Qed.

Lemma word_changed_none_only_on_blank_load_witness :
  let e := after (call (Load (of_string "one two"))) init in
  let a := Call (Load [32; 10; 9]) in
  exists out e',
    reachable e
    /\ step e a out e'
    /\ In (word_changed None) out
    /\ exists t, a = Call (Load t) /\ forallb isspace t = true.
Proof.
  intros e a.
  assert (Hr : reachable e)
    by (apply reachable_call; [apply reachable_init | vm_compute; reflexivity]).
  assert (Hs : step e a (emitted (call (Load [32; 10; 9])) e)
                 (after (call (Load [32; 10; 9])) e)).
  { apply step_call, returns_after. vm_compute. reflexivity. }
  assert (Hin : In (word_changed None) (emitted (call (Load [32; 10; 9])) e)).
  { vm_compute. do 5 right. left. reflexivity. }
  eexists. eexists. split; [exact Hr|]. split; [exact Hs|].
  split; [exact Hin|].
  exact (word_changed_none_only_on_blank_load e a _ _ Hr Hs Hin).
Defined.



(** X13: in every reachable state with words at least one word remains:
    [words_remaining] counts the current word, so it is still 1, not 0,
    after the text has been played to its end. *)
Theorem words_remaining_reachable e :
  reachable e ->
  words_remaining (state e)
  = len (words (state e)) - current_index (state e)
  /\ (words (state e) <> [] ->
      1 <= words_remaining (state e) <= len (words (state e)))
  /\ (words (state e) = [] -> words_remaining (state e) = 0).
Proof.
  intros Hr. destruct (cursor_invariant_inv e Hr) as [H1 H2].
  unfold words_remaining.
  destruct (words (state e)) as [|w ws] eqn:E.
  - rewrite (H2 eq_refl). cbn. repeat split; try lia. congruence.
  - specialize (H1 ltac:(discriminate)). repeat split; try lia. discriminate.
Qed.

Lemma words_remaining_reachable_witness :
  let e := after (call (SetRate 2000))
             (after (call Play)
                (after (call (Load (of_string "one two"))) init)) in
  let e' := after (ticks 2) e in
  reachable e
  /\ is_playing (state e') = false
  /\ words_remaining (state e') = 1.
Proof.
  intros e e'.
  assert (Hr : reachable e).
  { apply reachable_call;
      [apply reachable_call; [apply reachable_call; [apply reachable_init|]|]|];
      vm_compute; reflexivity. }
  assert (Hr' : reachable e').
  { assert (H1 : reachable (after advance e))
      by (apply reachable_tick; [exact Hr | |]; vm_compute; reflexivity).
    assert (H2 : reachable (after advance (after advance e)))
      by (apply reachable_tick; [exact H1 | |]; vm_compute; reflexivity).
    exact H2. }
  split; [exact Hr|]. split; [vm_compute; reflexivity|].
  rewrite (proj1 (words_remaining_reachable e' Hr')). vm_compute. reflexivity.
Defined.

(* ================================================================== *)
(** * More of the tokenizer *)
(* ================================================================== *)

Section TokenizerMore.

(** [process_text] is the word-building loop run on the tokens of the
    text; the whitespace normalisation before it is redundant. *)
Lemma process_text_words s : process_text s = process_words (split s) [].
Proof.
  unfold process_text.
  destruct (is_empty (re_sub_ws false (strip s))) eqn:E.
  - apply is_empty_true in E.
    rewrite <- (split_normalised s), E. reflexivity.
  - rewrite split_normalised. reflexivity.
Qed.

Lemma Tokens_nonspace s ts :
  Tokens s ts -> Forall (fun t => forallb nonspace t = true) ts.
Proof. induction 1; constructor; assumption. Qed.

Lemma filter_nonspace_spaces ws :
  forallb isspace ws = true -> filter nonspace ws = [].
Proof.
  induction ws as [|c ws IH]; cbn; [reflexivity|].
  intros H. apply andb_prop in H as [Hc Hws].
  unfold nonspace at 1. rewrite Hc. cbn. auto.
Qed.

Lemma filter_nonspace_token t :
  forallb nonspace t = true -> filter nonspace t = t.
Proof.
  induction t as [|c t IH]; cbn; [reflexivity|].
  intros H. apply andb_prop in H as [Hc Ht]. rewrite Hc, IH by exact Ht.
  reflexivity.
Qed.

Lemma Tokens_concat s ts : Tokens s ts -> List.concat ts = filter nonspace s.
Proof.
  induction 1 as [ws Hws | ws t rest ts Hws Ht Hns Hend _ IH].
  - rewrite filter_nonspace_spaces by exact Hws. reflexivity.
  - rewrite !filter_app, filter_nonspace_spaces, filter_nonspace_token
      by assumption.
    cbn [List.concat app]. rewrite IH. reflexivity.
Qed.

(** Joining tokens with single spaces gives a text with those tokens. *)
Lemma Tokens_join ts :
  Forall (fun t => t <> []) ts ->
  Forall (fun t => forallb nonspace t = true) ts ->
  Tokens (join [32] ts) ts.
Proof.
  induction ts as [|t rest IH]; intros Hne Hns.
  - apply Tokens_nil. reflexivity.
  - inversion Hne as [|? ? Ht Hne']; subst.
    inversion Hns as [|? ? Hs Hns']; subst.
    specialize (IH Hne' Hns').
    destruct rest as [|t' rest'].
    + cbn [join]. rewrite <- (app_nil_r t) at 1.
      apply (Tokens_cons [] t [] []);
        [reflexivity | exact Ht | exact Hs | exact I |].
      apply Tokens_nil. reflexivity.
    + change (join [32] (t :: t' :: rest'))
        with ([] ++ t ++ 32 :: join [32] (t' :: rest')).
      apply (Tokens_cons [] t);
        [reflexivity | exact Ht | exact Hs | reflexivity |].
      apply Tokens_space; [reflexivity | exact IH].
Qed.

End TokenizerMore.

(** X14: the result of [process_text] depends on the tokens of the text
    only: two texts with the same whitespace-separated tokens, however
    their whitespace differs, give the same words. *)
Theorem process_text_whitespace_insensitive s1 s2 ts :
  Tokens s1 ts ->
  Tokens s2 ts ->
  process_text s1 = process_text s2.
Proof.
  intros H1 H2. rewrite !process_text_words.
  rewrite (Tokens_split _ _ H1), (Tokens_split _ _ H2). reflexivity.
Qed.

Lemma process_text_whitespace_insensitive_witness :
  process_text (of_string "to be") = process_text [9; 116; 111; 10; 10; 98; 101; 32].
Proof.
  apply (process_text_whitespace_insensitive _ _ [of_string "to"; of_string "be"]).
  - apply (Tokens_cons [] (of_string "to") (of_string " be"));
      try reflexivity; [discriminate|].
    apply (Tokens_cons [32] (of_string "be") []);
      try reflexivity; [discriminate|].
    apply Tokens_nil. reflexivity.
  - apply (Tokens_cons [9] (of_string "to") [10; 10; 98; 101; 32]);
      try reflexivity; [discriminate|].
    apply (Tokens_cons [10; 10] (of_string "be") [32]);
      try reflexivity; [discriminate|].
    apply Tokens_nil. reflexivity.
Defined.

(** X15: tokenizing is stable under joining: the texts of the words of
    [process_text], joined with single spaces, tokenize to the same words
    again. *)
Theorem process_text_join_roundtrip s ws :
  process_text s = Ok ws ->
  process_text (join [32] (map text ws)) = Ok ws.
Proof.
  intros Hs.
  destruct (tokenize_total_tokens s) as (ws' & Hws' & Htok).
  rewrite Hs in Hws'. injection Hws' as <-.
  rewrite <- Hs, !process_text_words.
  rewrite (Tokens_split _ _ Htok).
  rewrite (Tokens_split _ _
             (Tokens_join _ (Tokens_nonempty _ _ Htok)
                            (Tokens_nonspace _ _ Htok))).
  reflexivity.
Qed.

Lemma process_text_join_roundtrip_witness :
  exists ws,
    process_text [32; 72; 105; 33; 9; 9; 121; 111; 117; 10] = Ok ws
    /\ join [32] (map text ws) = of_string "Hi! you"
    /\ process_text (of_string "Hi! you") = Ok ws.
Proof.
  assert (Hs : process_text [32; 72; 105; 33; 9; 9; 121; 111; 117; 10]
               = Ok [mkWord (of_string "Hi!") 0 2.5%float;
                     mkWord (of_string "you") 0 1.0%float])
    by (vm_compute; reflexivity).
  eexists. split; [exact Hs|]. split; [reflexivity|].
  exact (process_text_join_roundtrip _ _ Hs).
Defined.

(** X16: [process_text] loses and reorders no character: the texts of its
    words, put end to end, are the text with its whitespace deleted, and
    no word contains a whitespace character. *)
Theorem process_text_keeps_characters s ws :
  process_text s = Ok ws ->
  List.concat (map text ws) = filter nonspace s
  /\ Forall (fun w => forallb nonspace (text w) = true) ws.
Proof.
  intros Hs.
  destruct (tokenize_total_tokens s) as (ws' & Hws' & Htok).
  rewrite Hs in Hws'. injection Hws' as <-.
  split; [exact (Tokens_concat _ _ Htok)|].
  pose proof (Tokens_nonspace _ _ Htok) as H.
  rewrite Forall_map in H. exact H.
Qed.

Lemma process_text_keeps_characters_witness :
  exists ws,
    process_text (of_string " a  bc d ") = Ok ws
    /\ List.concat (map text ws) = of_string "abcd".
Proof.
  assert (Hs : process_text (of_string " a  bc d ")
               = Ok [mkWord (of_string "a") 0 1.0%float;
                     mkWord (of_string "bc") 0 1.0%float;
                     mkWord (of_string "d") 0 1.0%float])
    by (vm_compute; reflexivity).
  eexists. split; [exact Hs|].
  rewrite (proj1 (process_text_keeps_characters _ _ Hs)). reflexivity.
Defined.

(** X17: the three views of a [Word] with any focus index that is not
    negative give back its text; when the index is at or past the end of
    the text, the focus character and the text after it are empty and the
    text before it is the whole text.  The class does not check the
    index: one below [-len(text)] makes [orp_char] raise [IndexError]. *)
Theorem orp_views_any_index :
  (forall w,
      0 <= orp_index w ->
      exists c,
        orp_char w = Ok c
        /\ before_orp w ++ c ++ after_orp w = text w
        /\ (if orp_index w <? len (text w)
            then List.length c = 1%nat
            else c = [] /\ after_orp w = [] /\ before_orp w = text w))
  /\ (forall w, orp_index w < - len (text w) -> orp_char w = Raise IndexError).
Proof.
  split.
  - intros w H0. unfold orp_char, after_orp, before_orp.
    destruct (Z.ltb_spec (orp_index w) (len (text w))) as [Hlt|Hge].
    + destruct (slices_around (text w) (orp_index w) ltac:(lia))
        as (a & Hg & Hcut).
      rewrite Hg. exists [a]. repeat split. exact Hcut.
    + exists []. split; [reflexivity|].
      assert (Hb : slice_to (text w) (orp_index w) = text w).
      { unfold slice_to, slice_bound.
        destruct (Z.ltb_spec (orp_index w) 0); [lia|].
        rewrite Z.min_r by lia. unfold len. rewrite Nat2Z.id.
        apply firstn_all. }
      rewrite Hb, !app_nil_r. repeat split.
  - intros w Hlow. unfold orp_char, getitem.
    pose proof (len_nonneg (text w)).
    destruct (Z.ltb_spec (orp_index w) (len (text w))); [|lia].
    destruct (Z.ltb_spec (orp_index w) 0); [|lia].
    destruct (Z.leb_spec 0 (orp_index w + len (text w))); [lia|].
    reflexivity.
Qed.

Lemma orp_views_any_index_witness :
  let w := mkWord (of_string "hi") 5 1.0%float in
  orp_char w = Ok []
  /\ after_orp w = []
  /\ before_orp w = of_string "hi"
  /\ orp_char (mkWord (of_string "hi") (-3) 1.0%float) = Raise IndexError.
Proof.
  intros w.
  destruct (proj1 orp_views_any_index w) as (c & H1 & _ & H3).
  - vm_compute. discriminate.
  - change (orp_index w <? len (text w)) with false in H3.
    destruct H3 as (-> & H4 & H5).
    split; [exact H1|]. split; [exact H4|]. split; [exact H5|].
    apply (proj2 orp_views_any_index). vm_compute. reflexivity.
Defined.

(** X18: [calculate_pause_multiplier] returns on every string and never
    indexes out of range: the empty string gives 1.0, and a string that
    is one closing quote or parenthesis alone gives 1.2, without looking
    for a character before it.  The result is always one of 1.0, 1.2, 1.5
    and 2.5. *)
Theorem pause_multiplier_never_fails word :
  (exists f, calculate_pause_multiplier word = Ok f /\ In f pause_factors)
  /\ (word = [] -> calculate_pause_multiplier word = Ok 1.0%float)
  /\ (forall c, word = [c] -> char_in c closers = true ->
                calculate_pause_multiplier word = Ok 1.2%float).
Proof.
  split; [|split].
  - destruct word as [|x word'].
    + exists 1.0%float. split; [reflexivity | cbn; auto].
    + destruct (@snoc_of_nonempty _ (x :: word')) as (pre & c & Hw);
        [discriminate|].
      rewrite Hw, calculate_pause_multiplier_last.
      unfold pause_factors.
      repeat match goal with
             | |- context [if ?b then _ else _] => destruct b
             | |- context [match ?l with [] => _ | _ :: _ => _ end] =>
                 destruct l
             end; eexists; (split; [reflexivity | cbn; auto 6]).
  - intros ->. reflexivity.
  - intros c -> Hc.
    change [c] with ([] ++ [c]). rewrite calculate_pause_multiplier_last.
    assert (Hd : char_in c sentence_end = false /\ char_in c clause_sep = false).
    { revert Hc. unfold char_in, sentence_end, clause_sep, closers. cbn.
      repeat match goal with
             | |- context [?a =? ?b] => destruct (Z.eqb_spec a b)
             end; cbn; intros; try lia; auto; discriminate. }
    destruct Hd as [-> ->]. rewrite Hc. reflexivity.
Qed.

Lemma pause_multiplier_never_fails_witness :
  calculate_pause_multiplier [] = Ok 1.0%float
  /\ calculate_pause_multiplier [41] = Ok 1.2%float.
Proof.
  split.
  - apply (proj1 (proj2 (pause_multiplier_never_fails []))). reflexivity.
  - apply (proj2 (proj2 (pause_multiplier_never_fails [41])) 41); reflexivity.
Defined.

(* ================================================================== *)
(** * The settings: lists and dicts *)
(* ================================================================== *)

Section SettingsLists.

Import Settings.

Lemma str_eqb_eq a : forall b, str_eqb a b = true <-> a = b.
Proof.
  induction a as [|x a IH]; intros [|y b]; cbn; split; try congruence;
    try discriminate.
  - intros H. apply andb_prop in H as [Hx Hr].
    apply Z.eqb_eq in Hx. apply IH in Hr. congruence.
  - intros H. injection H as -> ->. apply andb_true_intro.
    split; [apply Z.eqb_refl | apply IH; reflexivity].
Qed.

Lemma str_eqb_refl a : str_eqb a a = true.
Proof. apply str_eqb_eq. reflexivity. Qed.

Lemma str_eqb_neq a b : a <> b -> str_eqb a b = false.
Proof.
  intros H. destruct (str_eqb a b) eqn:E; [|reflexivity].
  apply str_eqb_eq in E. contradiction.
Qed.

Context {A : Type} (eqb : A -> A -> bool).
Hypothesis eqb_eq : forall a b, eqb a b = true <-> a = b.

Lemma list_contains_In x l : list_contains eqb x l = true <-> In x l.
Proof.
  unfold list_contains. rewrite existsb_exists. split.
  - intros (y & Hy & He). apply eqb_eq in He. subst. exact Hy.
  - intros H. exists x. split; [exact H | apply eqb_eq; reflexivity].
Qed.

Lemma list_contains_not_In x l : list_contains eqb x l = false <-> ~ In x l.
Proof.
  rewrite <- list_contains_In. destruct (list_contains eqb x l);
    split; congruence.
Qed.

(** [remove] succeeds exactly on a list that has the element, and takes
    out one occurrence of it. *)
Lemma list_remove_In x l :
  In x l -> exists l', list_remove eqb x l = Some l' /\ Permutation l (x :: l').
Proof.
  induction l as [|y r IH]; intros H; [destruct H|].
  cbn [list_remove]. destruct (eqb x y) eqn:E.
  - apply eqb_eq in E. subst y. exists r. split; [reflexivity|]. reflexivity.
  - destruct H as [->|H].
    + assert (eqb x x = true) by (apply eqb_eq; reflexivity). congruence.
    + destruct (IH H) as (r' & -> & Hp). exists (y :: r').
      split; [reflexivity|].
      rewrite Hp. apply perm_swap.
Qed.

Lemma list_remove_not_In x l : ~ In x l -> list_remove eqb x l = None.
Proof.
  induction l as [|y r IH]; intros H; [reflexivity|].
  cbn [list_remove]. destruct (eqb x y) eqn:E.
  - apply eqb_eq in E. subst y. exfalso. apply H. left. reflexivity.
  - rewrite IH; [reflexivity|]. intros Hin. apply H. right. exact Hin.
Qed.

Lemma list_remove_Some_In x l l' :
  list_remove eqb x l = Some l' -> In x l.
Proof.
  revert l'. induction l as [|y r IH]; intros l' H; [discriminate|].
  cbn [list_remove] in H. destruct (eqb x y) eqn:E.
  - apply eqb_eq in E. left. congruence.
  - destruct (list_remove eqb x r) as [r'|]; [|discriminate].
    right. eapply IH. reflexivity.
Qed.

(** What [remove] leaves is the list without that occurrence, in the same
    order. *)
Lemma list_remove_keeps x l l' (P : A -> A -> Prop) :
  list_remove eqb x l = Some l' ->
  StronglySorted P l -> StronglySorted P l'.
Proof.
  revert l'. induction l as [|y r IH]; intros l' H Hs; [discriminate|].
  cbn [list_remove] in H. inversion Hs as [|? ? Hr Hy]; subst.
  destruct (eqb x y).
  - injection H as <-. exact Hr.
  - destruct (list_remove eqb x r) as [r'|] eqn:E; [|discriminate].
    injection H as <-. constructor; [apply IH; auto|].
    rewrite Forall_forall in *. intros z Hz. apply Hy.
    pose proof (list_remove_Some_In x r r' E) as Hp.
    destruct (list_remove_In x r Hp) as (r'' & E' & Hperm).
    rewrite E in E'. injection E' as <-.
    eapply Permutation_in; [symmetry; exact Hperm|]. right. exact Hz.
Qed.

End SettingsLists.

Section SettingsDicts.

Import Settings.

Context {V : Type}.
Implicit Types (d : dict V) (k : str).

Lemma dict_getitem_setitem_same k (v : V) d :
  dict_getitem k (dict_setitem k v d) = Some v.
Proof.
  induction d as [|[k' v'] r IH]; cbn.
  - rewrite str_eqb_refl. reflexivity.
  - destruct (str_eqb k k') eqn:E; cbn; rewrite E; [reflexivity | exact IH].
Qed.

Lemma dict_getitem_setitem_other k k' (v : V) d :
  k' <> k ->
  dict_getitem k' (dict_setitem k v d) = dict_getitem k' d.
Proof.
  intros Hne. induction d as [|[k0 v0] r IH]; cbn.
  - rewrite (str_eqb_neq _ _ Hne). reflexivity.
  - destruct (str_eqb k k0) eqn:E; cbn.
    + apply str_eqb_eq in E. subst k0.
      rewrite (str_eqb_neq _ _ Hne). reflexivity.
    + destruct (str_eqb k' k0); [reflexivity | exact IH].
Qed.

Lemma dict_contains_getitem k d :
  dict_contains k d = true <-> exists v, dict_getitem k d = Some v.
Proof.
  induction d as [|[k' v'] r IH]; cbn.
  - split; [discriminate | intros (v & H); discriminate].
  - destruct (str_eqb k k'); cbn; [split; eauto | exact IH].
Qed.

Lemma dict_contains_false k d :
  dict_contains k d = false <-> dict_getitem k d = None.
Proof.
  pose proof (dict_contains_getitem k d) as H. split.
  - intros Hc. destruct (dict_getitem k d) as [v|] eqn:E; [|reflexivity].
    assert (dict_contains k d = true) by (apply H; eauto). congruence.
  - intros Hg. destruct (dict_contains k d) eqn:E; [|reflexivity].
    destruct (proj1 H eq_refl) as (v & Hv). congruence.
Qed.

(** Setting a key to the value it has changes nothing. *)
Lemma dict_setitem_same_value k (v : V) d :
  dict_getitem k d = Some v -> dict_setitem k v d = d.
Proof.
  induction d as [|[k' v'] r IH]; cbn; [discriminate|].
  destruct (str_eqb k k') eqn:E.
  - intros H. injection H as ->. reflexivity.
  - intros H. rewrite IH by exact H. reflexivity.
Qed.

End SettingsDicts.

Section SettingsSorting.

Import Settings.

Lemma insert_sorted_perm x l : Permutation (insert_sorted x l) (x :: l).
Proof.
  induction l as [|y r IH]; cbn; [reflexivity|].
  destruct (x <=? y); [reflexivity|].
  rewrite IH. apply perm_swap.
Qed.

Lemma list_sort_perm l : Permutation (list_sort l) l.
Proof.
  induction l as [|x r IH]; cbn; [reflexivity|].
  rewrite insert_sorted_perm. constructor. exact IH.
Qed.

Lemma insert_sorted_sorted x l :
  StronglySorted Z.le l -> StronglySorted Z.le (insert_sorted x l).
Proof.
  induction l as [|y r IH]; intros Hs; cbn.
  - constructor; constructor.
  - inversion Hs as [|? ? Hr Hy]; subst.
    destruct (Z.leb_spec x y).
    + constructor; [exact Hs|]. constructor; [assumption|].
      rewrite Forall_forall in *. intros z Hz. specialize (Hy z Hz). lia.
    + constructor; [apply IH, Hr|].
      rewrite Forall_forall in *. intros z Hz.
      apply (Permutation_in _ (insert_sorted_perm x r)) in Hz.
      destruct Hz as [<-|Hz]; [lia | apply Hy, Hz].
Qed.

Lemma list_sort_sorted l : StronglySorted Z.le (list_sort l).
Proof.
  induction l as [|x r IH]; cbn; [constructor|].
  apply insert_sorted_sorted, IH.
Qed.

(** Sorted without repetition is strictly ascending. *)
Lemma sorted_nodup_ascending l :
  StronglySorted Z.le l -> NoDup l -> ascending l.
Proof.
  unfold ascending. induction 1 as [|x r Hr IH Hx]; intros Hnd; constructor.
  - apply IH. inversion Hnd. assumption.
  - inversion Hnd as [|? ? Hnin _]; subst.
    rewrite Forall_forall in *. intros z Hz. specialize (Hx z Hz).
    assert (x <> z) by (intros ->; contradiction). lia.
Qed.

Lemma ascending_nodup l : ascending l -> NoDup l.
Proof.
  unfold ascending. induction 1 as [|x r Hr IH Hx]; constructor; [|exact IH].
  intros Hin. rewrite Forall_forall in Hx. specialize (Hx x Hin). lia.
Qed.

(** Two strictly ascending lists with the same elements are equal. *)
Lemma ascending_unique l1 : forall l2,
  ascending l1 -> ascending l2 ->
  (forall x, In x l1 <-> In x l2) ->
  l1 = l2.
Proof.
  unfold ascending.
  induction l1 as [|a r1 IH]; intros [|b r2] H1 H2 Hin.
  - reflexivity.
  - exfalso. apply (proj2 (Hin b)). left. reflexivity.
  - exfalso. apply (proj1 (Hin a)). left. reflexivity.
  - inversion H1 as [|? ? Hr1 Ha]; subst.
    inversion H2 as [|? ? Hr2 Hb]; subst.
    rewrite Forall_forall in Ha, Hb.
    assert (a = b).
    { destruct (proj1 (Hin a) (or_introl eq_refl)) as [->|Hab]; [reflexivity|].
      destruct (proj2 (Hin b) (or_introl eq_refl)) as [->|Hba]; [reflexivity|].
      specialize (Ha b Hba). specialize (Hb a Hab). lia. }
    subst b. f_equal. apply IH; try assumption.
    intros x. split; intros Hx.
    + destruct (proj1 (Hin x) (or_intror Hx)) as [<-|H]; [|exact H].
      specialize (Ha a Hx). lia.
    + destruct (proj2 (Hin x) (or_intror Hx)) as [<-|H]; [|exact H].
      specialize (Hb a Hx). lia.
Qed.

(** Appending a new index to an ascending list and sorting keeps it
    ascending. *)
Lemma sort_append_ascending l i :
  ascending l -> ~ In i l -> ascending (list_sort (l ++ [i])).
Proof.
  intros Ha Hni. apply sorted_nodup_ascending; [apply list_sort_sorted|].
  apply (Permutation_NoDup (l := i :: l)).
  - symmetry. rewrite list_sort_perm. symmetry. apply Permutation_cons_append.
  - constructor; [exact Hni | apply ascending_nodup, Ha].
Qed.

Lemma list_sort_In l x : In x (list_sort l) <-> In x l.
Proof.
  split; apply Permutation_in; [|symmetry]; apply list_sort_perm.
Qed.

End SettingsSorting.

(* ================================================================== *)
(** * The settings: recent files and bookmarks *)
(* ================================================================== *)

Section SettingsMethods.

Import Settings.

Implicit Types (st : RSVPSettings) (fp : str) (i : Z).

Lemma In_firstn {A} (x : A) n l : In x (firstn n l) -> In x l.
Proof.
  intros H. rewrite <- (firstn_skipn n l). apply in_or_app. left. exact H.
Qed.

Lemma NoDup_firstn {A} n (l : list A) : NoDup l -> NoDup (firstn n l).
Proof.
  intros H. rewrite <- (firstn_skipn n l) in H.
  apply NoDup_app_remove_r in H. exact H.
Qed.

(** What [add_recent_file] takes out before it puts the path in front. *)
Lemma recent_removed fp rf :
  exists removed,
    (if list_contains str_eqb fp rf then list_remove str_eqb fp rf
     else Some rf) = Some removed
    /\ (forall x, In x removed -> In x rf)
    /\ (NoDup rf -> NoDup (fp :: removed))
    /\ (forall a tl, rf = a :: tl -> a <> fp -> exists tl', removed = a :: tl').
Proof.
  destruct (list_contains str_eqb fp rf) eqn:E.
  - apply (list_contains_In str_eqb str_eqb_eq) in E.
    destruct (list_remove_In str_eqb str_eqb_eq fp rf E) as (r' & Hr & Hp).
    exists r'. split; [exact Hr|]. split; [|split].
    + intros x Hx. eapply Permutation_in; [symmetry; exact Hp|].
      right. exact Hx.
    + intros Hnd. eapply Permutation_NoDup; eassumption.
    + intros a tl -> Hne. cbn [list_remove] in Hr.
      rewrite (str_eqb_neq fp a) in Hr by congruence.
      destruct (list_remove str_eqb fp tl) as [tl'|]; [|discriminate].
      injection Hr as <-. eauto.
  - apply (list_contains_not_In str_eqb str_eqb_eq) in E.
    exists rf. split; [reflexivity|]. split; [auto|]. split.
    + intros Hnd. constructor; assumption.
    + intros a tl -> _. eauto.
Qed.

Lemma add_recent_file_eq fp st :
  exists removed,
    add_recent_file fp st
    = Some (with_recent_files
              (slice_to (fp :: removed) (max_recent_files st)) st)
    /\ (forall x, In x removed -> In x (recent_files st))
    /\ (NoDup (recent_files st) -> NoDup (fp :: removed))
    /\ (forall a tl, recent_files st = a :: tl -> a <> fp ->
                     exists tl', removed = a :: tl').
Proof.
  destruct (recent_removed fp (recent_files st)) as (removed & H1 & H2).
  exists removed. split; [|exact H2].
  unfold add_recent_file. rewrite H1. reflexivity.
Qed.

Lemma slice_to_two {A} (a b : A) l n :
  2 <= n -> exists rest, slice_to (a :: b :: l) n = a :: b :: rest.
Proof.
  intros Hn. unfold slice_to, slice_bound.
  destruct (Z.ltb_spec n 0); [lia|].
  rewrite !len_cons. pose proof (len_nonneg l).
  destruct (Z.to_nat (Z.min n (1 + (1 + len l)))) as [|[|k]] eqn:E; try lia.
  cbn [firstn]. eauto.
Qed.

Lemma slice_to_one {A} (a : A) l n :
  1 <= n -> exists rest, slice_to (a :: l) n = a :: rest.
Proof.
  intros Hn. unfold slice_to, slice_bound.
  destruct (Z.ltb_spec n 0); [lia|].
  rewrite !len_cons. pose proof (len_nonneg l).
  destruct (Z.to_nat (Z.min n (1 + len l))) as [|k] eqn:E; try lia.
  cbn [firstn]. eauto.
Qed.

(** The bookmarks of a file after [add_bookmark]. *)
Lemma add_bookmark_view fp i st :
  exists bm',
    add_bookmark fp i st = Some (with_bookmarks bm' st)
    /\ dict_getitem fp bm'
       = Some (if list_contains Z.eqb i (get_bookmarks fp st)
               then get_bookmarks fp st
               else list_sort (get_bookmarks fp st ++ [i]))
    /\ (forall fp', fp' <> fp ->
                    dict_getitem fp' bm' = dict_getitem fp' (bookmarks st)).
Proof.
  unfold add_bookmark, get_bookmarks, dict_get.
  destruct (dict_contains fp (bookmarks st)) eqn:Ec.
  - destruct (proj1 (dict_contains_getitem _ _) Ec) as (l & Hl).
    rewrite Hl. destruct (list_contains Z.eqb i l).
    + exists (bookmarks st). auto.
    + eexists. split; [reflexivity|]. split.
      * apply dict_getitem_setitem_same.
      * intros fp' Hne. apply dict_getitem_setitem_other, Hne.
  - apply dict_contains_false in Ec. rewrite Ec.
    rewrite dict_getitem_setitem_same. cbn [list_contains existsb app].
    eexists. split; [reflexivity|]. split.
    + apply dict_getitem_setitem_same.
    + intros fp' Hne.
      rewrite !dict_getitem_setitem_other by exact Hne. reflexivity.
Qed.

(** The two cases of [remove_bookmark]. *)
Lemma remove_bookmark_view fp i st :
  (In i (get_bookmarks fp st) ->
   exists l',
     list_remove Z.eqb i (get_bookmarks fp st) = Some l'
     /\ remove_bookmark fp i st
        = Some (with_bookmarks (dict_setitem fp l' (bookmarks st)) st))
  /\ (~ In i (get_bookmarks fp st) -> remove_bookmark fp i st = Some st).
Proof.
  unfold remove_bookmark, get_bookmarks, dict_get.
  destruct (dict_contains fp (bookmarks st)) eqn:Ec.
  - destruct (proj1 (dict_contains_getitem _ _) Ec) as (l & Hl).
    rewrite Hl. split.
    + intros Hin.
      destruct (list_remove_In Z.eqb Z.eqb_eq i l Hin) as (l' & Hr & _).
      apply (list_contains_In Z.eqb Z.eqb_eq) in Hin.
      rewrite Hin, Hr. eauto.
    + intros Hnin. apply (list_contains_not_In Z.eqb Z.eqb_eq) in Hnin.
      rewrite Hnin. reflexivity.
  - apply dict_contains_false in Ec. rewrite Ec. split.
    + intros [].
    + reflexivity.
Qed.

Lemma get_bookmarks_with fp bm st :
  get_bookmarks fp (with_bookmarks bm st) = dict_get fp [] bm.
Proof. reflexivity. Qed.

Lemma with_bookmarks_same st : with_bookmarks (bookmarks st) st = st.
Proof. destruct st. reflexivity. Qed.

End SettingsMethods.

(** X19: [add_recent_file] never raises.  It changes the recent files
    only: each of the fifteen other settings keeps its value.  Every entry
    of the new list is the path or was in the old list; the path comes
    first when at least one entry is kept; the list is no longer than
    [max_recent_files] when that is not negative; and a list without
    repetition stays without repetition. *)
Theorem add_recent_file_spec fp st :
  exists st',
    Settings.add_recent_file fp st = Some st'
    /\ Settings.bookmarks st' = Settings.bookmarks st
    /\ Settings.max_recent_files st' = Settings.max_recent_files st
    /\ (forall x, In x (Settings.recent_files st') ->
                  x = fp \/ In x (Settings.recent_files st))
    /\ (1 <= Settings.max_recent_files st ->
        hd_error (Settings.recent_files st') = Some fp)
    /\ (0 <= Settings.max_recent_files st ->
        len (Settings.recent_files st') <= Settings.max_recent_files st)
    /\ (NoDup (Settings.recent_files st) ->
        NoDup (Settings.recent_files st'))
    /\ Settings.wpm st' = Settings.wpm st
    /\ Settings.font_family st' = Settings.font_family st
    /\ Settings.font_size st' = Settings.font_size st
    /\ Settings.text_color st' = Settings.text_color st
    /\ Settings.background_color st' = Settings.background_color st
    /\ Settings.orp_color st' = Settings.orp_color st
    /\ Settings.pause_at_paragraphs st' = Settings.pause_at_paragraphs st
    /\ Settings.auto_save_position st' = Settings.auto_save_position st
    /\ Settings.window_width st' = Settings.window_width st
    /\ Settings.window_height st' = Settings.window_height st
    /\ Settings.window_x st' = Settings.window_x st
    /\ Settings.window_y st' = Settings.window_y st
    /\ Settings.always_on_top st' = Settings.always_on_top st.
Proof.
  destruct (add_recent_file_eq fp st) as (removed & Heq & Hin & Hnd & _).
  eexists. split; [exact Heq|].
  cbn [Settings.with_recent_files Settings.bookmarks Settings.max_recent_files
       Settings.recent_files Settings.wpm Settings.font_family
       Settings.font_size Settings.text_color Settings.background_color
       Settings.orp_color Settings.pause_at_paragraphs
       Settings.auto_save_position Settings.window_width
       Settings.window_height Settings.window_x Settings.window_y
       Settings.always_on_top].
  split; [reflexivity|]. split; [reflexivity|].
  split; [|split; [|split; [|split]]].
  - intros x Hx. apply In_firstn in Hx. destruct Hx as [<-|Hx]; auto.
  - intros Hmax.
    destruct (slice_to_one fp removed _ Hmax) as (rest & ->). reflexivity.
  - intros Hmax. unfold slice_to, slice_bound, len.
    destruct (Z.ltb_spec (Settings.max_recent_files st) 0); [lia|].
    rewrite length_firstn. fold (len (fp :: removed)). lia.
  - intros H. apply NoDup_firstn, Hnd, H.
  - repeat split.
Qed.

Lemma add_recent_file_spec_witness :
  let st := Settings.with_recent_files
              [of_string "a.txt"; of_string "b.txt"; of_string "c.txt"]
              Settings.default in
  exists st',
    Settings.add_recent_file (of_string "b.txt") st = Some st'
    /\ Settings.recent_files st'
       = [of_string "b.txt"; of_string "a.txt"; of_string "c.txt"]
    /\ hd_error (Settings.recent_files st') = Some (of_string "b.txt").
Proof.
  intros st.
  destruct (add_recent_file_spec (of_string "b.txt") st)
    as (st' & H1 & _ & _ & _ & H2 & _).
  exists st'. split; [exact H1|]. split.
  - assert (Hc : Settings.add_recent_file (of_string "b.txt") st
                 = Some (Settings.with_recent_files
                           [of_string "b.txt"; of_string "a.txt";
                            of_string "c.txt"] st))
      by (vm_compute; reflexivity).
    rewrite Hc in H1. injection H1 as <-. reflexivity.
  - apply H2. vm_compute. discriminate.
Defined.

(** X20: the most recent file comes first: after adding a path and then
    another one, with room for at least two entries, the recent files
    start with the second path followed by the first. *)
Theorem add_recent_file_twice a b st :
  a <> b ->
  2 <= Settings.max_recent_files st ->
  exists st1 st2 rest,
    Settings.add_recent_file a st = Some st1
    /\ Settings.add_recent_file b st1 = Some st2
    /\ Settings.recent_files st2 = b :: a :: rest.
Proof.
  intros Hab Hmax.
  destruct (add_recent_file_eq a st) as (rem1 & H1 & _).
  destruct (slice_to_one a rem1 (Settings.max_recent_files st) ltac:(lia))
    as (tl1 & Hs1).
  rewrite Hs1 in H1.
  set (st1 := Settings.with_recent_files (a :: tl1) st) in *.
  destruct (add_recent_file_eq b st1) as (rem2 & H2 & _ & _ & Hhead).
  destruct (Hhead a tl1 eq_refl Hab) as (tl2 & ->).
  destruct (slice_to_two b a tl2 (Settings.max_recent_files st1) Hmax)
    as (rest & Hs2).
  rewrite Hs2 in H2.
  exists st1. eexists. exists rest.
  split; [exact H1|]. split; [exact H2|]. reflexivity.
Qed.

Lemma add_recent_file_twice_witness :
  exists st1 st2 rest,
    Settings.add_recent_file (of_string "x") Settings.default = Some st1
    /\ Settings.add_recent_file (of_string "y") st1 = Some st2
    /\ Settings.recent_files st2 = of_string "y" :: of_string "x" :: rest.
Proof.
  apply add_recent_file_twice.
  - discriminate.
  - vm_compute. discriminate.
Defined.

(** X21: [add_bookmark] never raises.  Afterwards the bookmarks of the
    file are the old ones and the new index, the bookmarks of every other
    file and the recent files are as before, and bookmarks that were in
    ascending order without repetition still are. *)
Theorem add_bookmark_spec fp i st :
  exists st',
    Settings.add_bookmark fp i st = Some st'
    /\ (forall j, In j (Settings.get_bookmarks fp st') <->
                  j = i \/ In j (Settings.get_bookmarks fp st))
    /\ (forall fp', fp' <> fp ->
                    Settings.get_bookmarks fp' st'
                    = Settings.get_bookmarks fp' st)
    /\ Settings.recent_files st' = Settings.recent_files st
    /\ (ascending (Settings.get_bookmarks fp st) ->
        ascending (Settings.get_bookmarks fp st')).
Proof.
  destruct (add_bookmark_view fp i st) as (bm' & Heq & Hget & Hother).
  eexists. split; [exact Heq|].
  rewrite get_bookmarks_with. unfold Settings.dict_get. rewrite Hget.
  split; [|split; [|split]].
  - intros j.
    destruct (Settings.list_contains Z.eqb i (Settings.get_bookmarks fp st))
      eqn:E.
    + apply (list_contains_In Z.eqb Z.eqb_eq) in E.
      split; [auto | intros [->|H]; assumption].
    + rewrite list_sort_In, in_app_iff. cbn [In].
      split; [intros [H|[<-|[]]]; auto | intros [->|H]; auto].
  - intros fp' Hne. rewrite get_bookmarks_with.
    unfold Settings.get_bookmarks, Settings.dict_get.
    rewrite (Hother fp' Hne). reflexivity.
  - reflexivity.
  - intros Ha.
    destruct (Settings.list_contains Z.eqb i (Settings.get_bookmarks fp st))
      eqn:E; [exact Ha|].
    apply (list_contains_not_In Z.eqb Z.eqb_eq) in E.
    apply sort_append_ascending; assumption.
Qed.

Lemma add_bookmark_spec_witness :
  let st := Settings.with_bookmarks [(of_string "f", [3; 9])]
              Settings.default in
  exists st',
    Settings.add_bookmark (of_string "f") 5 st = Some st'
    /\ Settings.get_bookmarks (of_string "f") st' = [3; 5; 9]
    /\ ascending (Settings.get_bookmarks (of_string "f") st').
Proof.
  intros st.
  destruct (add_bookmark_spec (of_string "f") 5 st)
    as (st' & H1 & _ & _ & _ & H2).
  exists st'. split; [exact H1|]. split.
  - assert (Hc : Settings.add_bookmark (of_string "f") 5 st
                 = Some (Settings.with_bookmarks
                           [(of_string "f", [3; 5; 9])] st))
      by (vm_compute; reflexivity).
    rewrite Hc in H1. injection H1 as <-. reflexivity.
  - apply H2. repeat constructor.
Defined.

(** X22: adding a bookmark twice is the same as adding it once. *)
Theorem add_bookmark_idempotent fp i st st' :
  Settings.add_bookmark fp i st = Some st' ->
  Settings.add_bookmark fp i st' = Some st'.
Proof.
  intros H1.
  destruct (add_bookmark_view fp i st) as (bm' & Heq & Hget & _).
  rewrite Heq in H1. injection H1 as <-.
  assert (Hin : In i (Settings.get_bookmarks fp (Settings.with_bookmarks bm' st))).
  { rewrite get_bookmarks_with. unfold Settings.dict_get. rewrite Hget.
    destruct (Settings.list_contains Z.eqb i (Settings.get_bookmarks fp st))
      eqn:E.
    - apply (list_contains_In Z.eqb Z.eqb_eq), E.
    - apply list_sort_In, in_or_app. right. left. reflexivity. }
  unfold Settings.add_bookmark.
  cbn [Settings.bookmarks Settings.with_bookmarks].
  assert (Hc : Settings.dict_contains fp bm' = true)
    by (apply dict_contains_getitem; eauto).
  rewrite Hc, Hget.
  rewrite get_bookmarks_with in Hin. unfold Settings.dict_get in Hin.
  rewrite Hget in Hin.
  apply (list_contains_In Z.eqb Z.eqb_eq) in Hin. rewrite Hin.
  reflexivity.
Qed.

Lemma add_bookmark_idempotent_witness :
  exists st',
    Settings.add_bookmark (of_string "f") 7 Settings.default = Some st'
    /\ Settings.add_bookmark (of_string "f") 7 st' = Some st'.
Proof.
  eexists. split.
  - vm_compute. reflexivity.
  - apply (add_bookmark_idempotent (of_string "f") 7 Settings.default).
    vm_compute. reflexivity.
Defined.

(** X23: [remove_bookmark] never raises, also for a file without
    bookmarks and for an index that is not a bookmark, where it changes
    nothing.  It keeps every other bookmark of the file and the bookmarks
    of every other file, keeps ascending bookmarks ascending, and when the
    bookmarks of the file had no repetition the index is gone. *)
Theorem remove_bookmark_spec fp i st :
  exists st',
    Settings.remove_bookmark fp i st = Some st'
    /\ (forall j, j <> i ->
                  (In j (Settings.get_bookmarks fp st') <->
                   In j (Settings.get_bookmarks fp st)))
    /\ (NoDup (Settings.get_bookmarks fp st) ->
        ~ In i (Settings.get_bookmarks fp st'))
    /\ (forall fp', fp' <> fp ->
                    Settings.get_bookmarks fp' st'
                    = Settings.get_bookmarks fp' st)
    /\ (~ In i (Settings.get_bookmarks fp st) -> st' = st)
    /\ (ascending (Settings.get_bookmarks fp st) ->
        ascending (Settings.get_bookmarks fp st')).
Proof.
  destruct (remove_bookmark_view fp i st) as [Hyes Hno].
  destruct (in_dec Z.eq_dec i (Settings.get_bookmarks fp st)) as [Hin|Hnin].
  - destruct (Hyes Hin) as (l' & Hr & Heq).
    destruct (list_remove_In Z.eqb Z.eqb_eq i _ Hin) as (l'' & Hr' & Hperm).
    rewrite Hr in Hr'. injection Hr' as <-.
    eexists. split; [exact Heq|].
    rewrite get_bookmarks_with. unfold Settings.dict_get.
    rewrite dict_getitem_setitem_same.
    split; [|split; [|split; [|split]]].
    + intros j Hj. split; intros H.
      * eapply Permutation_in; [symmetry; exact Hperm|]. right. exact H.
      * apply (Permutation_in _ Hperm) in H. destruct H as [<-|H];
          [contradiction | exact H].
    + intros Hnd. apply (Permutation_NoDup Hperm) in Hnd.
      inversion Hnd. assumption.
    + intros fp' Hne. rewrite get_bookmarks_with.
      unfold Settings.get_bookmarks, Settings.dict_get.
      rewrite dict_getitem_setitem_other by exact Hne. reflexivity.
    + intros Hnin. contradiction.
    + intros Ha. eapply (list_remove_keeps Z.eqb Z.eqb_eq); eassumption.
  - exists st. split; [exact (Hno Hnin)|].
    repeat split; auto.
Qed.

Lemma remove_bookmark_spec_witness :
  let st := Settings.with_bookmarks [(of_string "f", [3; 5; 9])]
              Settings.default in
  exists st',
    Settings.remove_bookmark (of_string "f") 5 st = Some st'
    /\ ~ In 5 (Settings.get_bookmarks (of_string "f") st')
    /\ Settings.remove_bookmark (of_string "g") 5 st = Some st.
Proof.
  intros st.
  destruct (remove_bookmark_spec (of_string "f") 5 st)
    as (st' & H1 & _ & H2 & _).
  exists st'. split; [exact H1|]. split.
  - apply H2. vm_compute. repeat constructor; cbn; lia.
  - destruct (remove_bookmark_spec (of_string "g") 5 st)
      as (st2 & H3 & _ & _ & _ & H4 & _).
    rewrite H3. f_equal. apply H4. vm_compute. tauto.
Defined.

(** X24: adding a bookmark that was not there and removing it again gives
    back the bookmarks of every file, when those of the file were in
    ascending order. *)
Theorem add_then_remove_bookmark fp i st :
  ascending (Settings.get_bookmarks fp st) ->
  ~ In i (Settings.get_bookmarks fp st) ->
  exists st1 st2,
    Settings.add_bookmark fp i st = Some st1
    /\ Settings.remove_bookmark fp i st1 = Some st2
    /\ forall fp', Settings.get_bookmarks fp' st2
                   = Settings.get_bookmarks fp' st.
Proof.
  intros Ha Hnin.
  destruct (add_bookmark_view fp i st) as (bm1 & Heq1 & Hget1 & Hother1).
  apply (list_contains_not_In Z.eqb Z.eqb_eq) in Hnin as Hc.
  rewrite Hc in Hget1.
  set (st1 := Settings.with_bookmarks bm1 st) in *.
  set (l1 := Settings.list_sort (Settings.get_bookmarks fp st ++ [i])) in *.
  assert (Hg1 : Settings.get_bookmarks fp st1 = l1).
  { unfold st1. rewrite get_bookmarks_with. unfold Settings.dict_get.
    rewrite Hget1. reflexivity. }
  assert (Hin1 : In i (Settings.get_bookmarks fp st1)).
  { rewrite Hg1. apply list_sort_In, in_or_app. right. left. reflexivity. }
  destruct (proj1 (remove_bookmark_view fp i st1) Hin1) as (l2 & Hr & Heq2).
  rewrite Hg1 in Hr.
  destruct (list_remove_In Z.eqb Z.eqb_eq i l1) as (l2' & Hr' & Hperm);
    [rewrite <- Hg1; exact Hin1|].
  rewrite Hr in Hr'. injection Hr' as <-.
  assert (Ha1 : ascending l1) by (apply sort_append_ascending; assumption).
  exists st1. eexists. split; [exact Heq1|]. split; [exact Heq2|].
  intros fp'. rewrite get_bookmarks_with.
  destruct (list_eq_dec Z.eq_dec fp' fp) as [->|Hne].
  - unfold Settings.dict_get. rewrite dict_getitem_setitem_same.
    apply ascending_unique.
    + eapply (list_remove_keeps Z.eqb Z.eqb_eq); eassumption.
    + exact Ha.
    + pose proof (ascending_nodup _ Ha1) as Hnd.
      apply (Permutation_NoDup Hperm) in Hnd.
      inversion Hnd as [|? ? Hni2 _]; subst.
      intros x. split; intros Hx.
      * assert (Hx1 : In x l1)
          by (eapply Permutation_in; [symmetry; exact Hperm|]; right; exact Hx).
        apply list_sort_In, in_app_or in Hx1.
        destruct Hx1 as [Hx1|[<-|[]]]; [exact Hx1 | contradiction].
      * assert (Hx1 : In x l1)
          by (apply list_sort_In, in_or_app; left; exact Hx).
        apply (Permutation_in _ Hperm) in Hx1.
        destruct Hx1 as [<-|Hx1]; [contradiction | exact Hx1].
  - unfold Settings.get_bookmarks, Settings.dict_get.
    rewrite dict_getitem_setitem_other by exact Hne.
    cbn [Settings.bookmarks Settings.with_bookmarks st1].
    unfold st1. cbn [Settings.bookmarks Settings.with_bookmarks].
    rewrite (Hother1 fp' Hne). reflexivity.
Qed.

Lemma add_then_remove_bookmark_witness :
  let st := Settings.with_bookmarks [(of_string "f", [3; 9])]
              Settings.default in
  exists st1 st2,
    Settings.add_bookmark (of_string "f") 5 st = Some st1
    /\ Settings.remove_bookmark (of_string "f") 5 st1 = Some st2
    /\ Settings.get_bookmarks (of_string "f") st2 = [3; 9].
Proof.
  intros st.
  destruct (add_then_remove_bookmark (of_string "f") 5 st)
    as (st1 & st2 & H1 & H2 & H3).
  - repeat constructor.
  - vm_compute. intros [H|[H|[]]]; discriminate.
  - exists st1, st2. split; [exact H1|]. split; [exact H2|].
    rewrite H3. reflexivity.
Defined.
